(** * PII validator of the Smart Email Assistant

    A shallow embedding of [validators/pii_validator.py]: the detector
    registry [PATTERNS], [PIIValidator.validate], [_detect_patterns],
    [_mask] and [sanitize], over a model of the part of Python's [re]
    module the six patterns use.

    Texts are Python [str] values whose code points are below 256; a
    character is an [ascii] read as its code point.  The character tables
    ([\w], [\d], [\s], simple case mapping) are Unicode's, cut to that
    range.  Floats are IEEE binary64 values, as [spec_float]. *)

From Stdlib Require Import Bool Arith NArith ZArith Lia Ascii String List.
From Stdlib Require Import SpecFloat.
Import ListNotations.
Local Open Scope string_scope.
Local Open Scope nat_scope.
Local Open Scope list_scope.

Set Implicit Arguments.

(** ** Characters *)

Definition text := list ascii.

Definition code (c : ascii) : N := N_of_ascii c.

Definition between (lo hi : N) (c : ascii) : bool :=
  (lo <=? code c)%N && (code c <=? hi)%N.

(** [\d] on a [str] pattern: Unicode decimal digits. *)
Definition is_digit (c : ascii) : bool := between 48 57 c.

(** [\s] on a [str] pattern: Unicode white space. *)
Definition is_space (c : ascii) : bool :=
  between 9 13 c || between 28 32 c || (code c =? 133)%N || (code c =? 160)%N.

(** [\w] on a [str] pattern: Unicode alphanumerics and the underscore. *)
Definition is_word (c : ascii) : bool :=
  between 48 57 c || between 65 90 c || (code c =? 95)%N || between 97 122 c
  || (code c =? 170)%N || between 178 179 c || (code c =? 181)%N
  || between 185 186 c || between 188 190 c || between 192 214 c
  || between 216 246 c || between 248 255 c.

(** Simple case mappings.  The capital of U+00B5 and of U+00FF lie above
    the modelled range and U+00DF has none, so these three stay. *)
Definition lower (c : ascii) : ascii :=
  if between 65 90 c || between 192 214 c || between 216 222 c
  then ascii_of_N (code c + 32) else c.

Definition upper (c : ascii) : ascii :=
  if between 97 122 c || between 224 246 c || between 248 254 c
  then ascii_of_N (code c - 32) else c.

(** ** Patterns *)

(** One member of a bracketed character set. *)
Inductive item : Type :=
| IChr (c : ascii)            (* a literal character *)
| IRange (lo hi : ascii)      (* lo-hi *)
| IDigit                      (* \d *)
| ISpace.                     (* \s *)

Definition charset := list item.

(** The pattern syntax the registry needs.  A repetition of a single
    character set is its own node, as in the compiled form, where such a
    repetition is run by counting and giving back ([REPEAT_ONE]). *)
Inductive regex : Type :=
| Eps
| Bound                                         (* \b *)
| Chr (c : ascii)                               (* literal *)
| Cls (cs : charset)                            (* [...] , \d , \s *)
| Seq (r1 r2 : regex)
| Alt (r1 r2 : regex)                           (* r1|r2 *)
| Group (n : nat) (r : regex)                   (* n-th capturing (...) *)
| Opt (r : regex)                               (* (?:r)? *)
| Rep (lo : nat) (hi : option nat) (cs : charset). (* [...]{lo,hi}, greedy *)

Fixpoint cat (rs : list regex) : regex :=
  match rs with
  | [] => Eps
  | r :: rs' => Seq r (cat rs')
  end.

Fixpoint lit (s : string) : regex :=
  match s with
  | EmptyString => Eps
  | String c s' => Seq (Chr c) (lit s')
  end.

Fixpoint alts (r : regex) (rs : list regex) : regex :=
  match rs with
  | [] => r
  | r' :: rs' => Alt r (alts r' rs')
  end.

Definition plus (cs : charset) : regex := Rep 1 None cs.
Definition times (n : nat) (cs : charset) : regex := Rep n (Some n) cs.
Definition maybe (cs : charset) : regex := Rep 0 (Some 1) cs.

Fixpoint ngroups (r : regex) : nat :=
  match r with
  | Seq r1 r2 | Alt r1 r2 => Nat.max (ngroups r1) (ngroups r2)
  | Group n r' => Nat.max n (ngroups r')
  | Opt r' => ngroups r'
  | _ => 0
  end.

(** ** Matching *)

Definition item_has (i : item) (c : ascii) : bool :=
  match i with
  | IChr x => Ascii.eqb x c
  | IRange lo hi => between (code lo) (code hi) c
  | IDigit => is_digit c
  | ISpace => is_space c
  end.

Definition set_has (cs : charset) (c : ascii) : bool :=
  existsb (fun i => item_has i c) cs.

(** With [re.IGNORECASE] ([ic = true]) a character matches when one of its
    case variants does. *)
Definition chr_match (ic : bool) (x c : ascii) : bool :=
  if ic then Ascii.eqb (lower x) (lower c) else Ascii.eqb x c.

Definition set_match (ic : bool) (cs : charset) (c : ascii) : bool :=
  if ic then set_has cs (lower c) || set_has cs (upper c) else set_has cs c.

Definition word_opt (o : option ascii) : bool :=
  match o with
  | Some c => is_word c
  | None => false
  end.

(** [\b] between the character before the position ([None] at the start of
    the text) and the text ahead. *)
Definition at_boundary (pv : option ascii) (rs : text) : bool :=
  negb (Bool.eqb (word_opt pv) (word_opt (hd_error rs))).

Definition caps := list (nat * text).

(** The part of [rs] consumed on the way to its suffix [rs']. *)
Definition eaten (rs rs' : text) : text :=
  firstn (length rs - length rs') rs.

Definition room (hi : option nat) : bool :=
  match hi with
  | Some 0 => false
  | _ => true
  end.

Section Exec.
Variable A : Type.
Variable ic : bool.

(** Greedy repetition of one character set: take as many as allowed,
    then give back one at a time until the rest of the pattern agrees. *)
Fixpoint rep_one (cs : charset) (lo : nat) (hi : option nat)
    (pv : option ascii) (rs : text)
    (k : option ascii -> text -> option A) : option A :=
  match rs with
  | x :: tl =>
      if room hi && set_match ic cs x then
        match rep_one cs (pred lo) (option_map pred hi) (Some x) tl k with
        | Some a => Some a
        | None => if lo =? 0 then k pv rs else None
        end
      else if lo =? 0 then k pv rs else None
  | [] => if lo =? 0 then k pv rs else None
  end.

(** The backtracking matcher, in continuation-passing style: [k] is the
    rest of the pattern, [None] makes the matcher try its next choice. *)
Fixpoint exec (r : regex) (pv : option ascii) (rs : text) (cs : caps)
    (k : option ascii -> text -> caps -> option A) : option A :=
  match r with
  | Eps => k pv rs cs
  | Bound => if at_boundary pv rs then k pv rs cs else None
  | Chr c =>
      match rs with
      | x :: tl => if chr_match ic x c then k (Some x) tl cs else None
      | [] => None
      end
  | Cls s =>
      match rs with
      | x :: tl => if set_match ic s x then k (Some x) tl cs else None
      | [] => None
      end
  | Seq r1 r2 =>
      exec r1 pv rs cs (fun pv' rs' cs' => exec r2 pv' rs' cs' k)
  | Alt r1 r2 =>
      match exec r1 pv rs cs k with
      | Some a => Some a
      | None => exec r2 pv rs cs k
      end
  | Group n r' =>
      exec r' pv rs cs (fun pv' rs' cs' => k pv' rs' ((n, eaten rs rs') :: cs'))
  | Opt r' =>
      match exec r' pv rs cs k with
      | Some a => Some a
      | None => k pv rs cs
      end
  | Rep lo hi s =>
      rep_one s lo hi pv rs (fun pv' rs' => k pv' rs' cs)
  end.
End Exec.

(** A match object: [group(0)] and the captured groups. *)
Record rmatch : Type := Match { whole : text; groups : caps }.

Fixpoint group_lookup (n : nat) (cs : caps) : option text :=
  match cs with
  | [] => None
  | (m, t) :: cs' => if m =? n then Some t else group_lookup n cs'
  end.

(** One match attempt at a position.  [must_advance] refuses the empty
    match, as the scanner asks right after an empty match. *)
Definition attempt (ic : bool) (r : regex) (must_advance : bool)
    (pv : option ascii) (rs : text) : option rmatch :=
  exec ic r pv rs []
    (fun _ rs' cs =>
       if must_advance && (length rs' =? length rs) then None
       else Some (Match (eaten rs rs') cs)).

(** [re.fullmatch]: the match has to end at the end of the text. *)
Definition re_fullmatch (ic : bool) (r : regex) (s : text) : option rmatch :=
  exec ic r None s []
    (fun _ rs' cs =>
       match rs' with
       | [] => Some (Match s cs)
       | _ :: _ => None
       end).

(** ** Scanning: [finditer], [findall], [sub] *)

(** The scan cuts the text into the characters outside every match and the
    matches, leftmost first and not overlapping. *)
Inductive piece : Type :=
| Gap (c : ascii)
| Hit (m : rmatch).

(** [skip] counts the characters of the current match still to pass. *)
Fixpoint scan (ic : bool) (r : regex) (pv : option ascii) (rs : text)
    (skip : nat) : list piece :=
  match skip with
  | S n =>
      match rs with
      | [] => []
      | x :: tl => scan ic r (Some x) tl n
      end
  | O =>
      match attempt ic r false pv rs with
      | Some m =>
          match rs with
          | [] => [Hit m]
          | x :: tl =>
              match length (whole m) with
              | S n => Hit m :: scan ic r (Some x) tl n
              | O =>
                  Hit m ::
                  match attempt ic r true pv rs with
                  | Some m' =>
                      Hit m' :: scan ic r (Some x) tl (pred (length (whole m')))
                  | None => Gap x :: scan ic r (Some x) tl 0
                  end
              end
          end
      | None =>
          match rs with
          | [] => []
          | x :: tl => Gap x :: scan ic r (Some x) tl 0
          end
      end
  end.

Fixpoint hits (ps : list piece) : list rmatch :=
  match ps with
  | [] => []
  | Gap _ :: ps' => hits ps'
  | Hit m :: ps' => m :: hits ps'
  end.

Definition re_finditer (ic : bool) (r : regex) (s : text) : list rmatch :=
  hits (scan ic r None s 0).

(** [m.group(i)], the empty text for a group that took no part. *)
Definition group_or_empty (m : rmatch) (i : nat) : text :=
  match group_lookup i (groups m) with
  | Some t => t
  | None => []
  end.

(** What [re.findall] returns: texts for a pattern with at most one group,
    tuples of groups otherwise. *)
Inductive found : Type :=
| Strs (l : list text)
| Tuples (l : list (list text)).

Definition re_findall (ic : bool) (r : regex) (s : text) : found :=
  let ms := re_finditer ic r s in
  match ngroups r with
  | 0 => Strs (map whole ms)
  | 1 => Strs (map (fun m => group_or_empty m 1) ms)
  | n => Tuples (map (fun m => map (group_or_empty m) (seq 1 n)) ms)
  end.

(** [re.sub] with a callable replacement, which may raise. *)
Fixpoint render (repl : rmatch -> option text) (ps : list piece)
    : option text :=
  match ps with
  | [] => Some []
  | Gap c :: ps' =>
      match render repl ps' with
      | Some t => Some (c :: t)
      | None => None
      end
  | Hit m :: ps' =>
      match repl m with
      | Some w =>
          match render repl ps' with
          | Some t => Some (w ++ t)
          | None => None
          end
      | None => None
      end
  end.

Definition re_sub_with (ic : bool) (r : regex) (repl : rmatch -> option text)
    (s : text) : option text :=
  render repl (scan ic r None s 0).

(** [re.sub] with a replacement text free of backslashes. *)
Definition re_sub (ic : bool) (r : regex) (repl : text) (s : text)
    : option text :=
  re_sub_with ic r (fun _ => Some repl) s.

(** ** Python strings *)

Definition chars (s : string) : text := list_ascii_of_string s.
Definition str (t : text) : string := string_of_list_ascii t.

(** [re] flags: only [re.IGNORECASE] is used. *)
Definition IGNORECASE : bool := true.
Definition NOFLAGS : bool := false.

Definition findall (pattern : regex) (s : string) (flags : bool) : found :=
  re_findall flags pattern (chars s).

Definition sub (pattern : regex) (repl : string) (s : string) (flags : bool)
    : option string :=
  option_map str (re_sub flags pattern (chars repl) (chars s)).

Definition sub_with (pattern : regex) (repl : rmatch -> option string)
    (s : string) (flags : bool) : option string :=
  option_map str
    (re_sub_with flags pattern (fun m => option_map chars (repl m)) (chars s)).

(** [s.split(sep)] for a one-character separator. *)
Fixpoint split_on (sep : ascii) (s : text) : list text :=
  match s with
  | [] => [[]]
  | c :: s' =>
      if Ascii.eqb c sep then [] :: split_on sep s'
      else
        match split_on sep s' with
        | w :: ws => (c :: w) :: ws
        | [] => [[c]]
        end
  end.

(** [sep.join(parts)]. *)
Fixpoint join (sep : text) (parts : list text) : text :=
  match parts with
  | [] => []
  | [p] => p
  | p :: ps => p ++ sep ++ join sep ps
  end.

(** [s.upper()], for the category names. *)
Definition str_upper (s : string) : string := str (map upper (chars s)).

(** [needle in s]. *)
Fixpoint starts_with (p s : text) : bool :=
  match p, s with
  | [], _ => true
  | _ :: _, [] => false
  | a :: p', b :: s' => Ascii.eqb a b && starts_with p' s'
  end.

Fixpoint occurs (p s : text) : bool :=
  starts_with p s ||
  match s with
  | [] => false
  | _ :: s' => occurs p s'
  end.

Definition contains (s needle : string) : bool := occurs (chars needle) (chars s).

(** ** The detector registry *)

Definition letters : charset := [IRange "A" "Z"; IRange "a" "z"]%char.
Definition digits09 : charset := [IRange "0" "9"]%char.
Definition local_set : charset :=
  letters ++ digits09 ++ [IChr "."; IChr "_"; IChr "%"; IChr "+"; IChr "-"]%char.
Definition domain_set : charset :=
  letters ++ digits09 ++ [IChr "."; IChr "-"]%char.
Definition tld_set : charset := [IRange "A" "Z"; IChr "|"; IRange "a" "z"]%char.
Definition dash_dot : charset := [IChr "-"; IChr "."]%char.
Definition dash_space : charset := [IChr "-"%char; ISpace].

(** [\b[A-Za-z0-9._%+-]+@[A-Za-z0-9.-]+\.[A-Z|a-z]{2,}\b] *)
Definition email_re : regex :=
  cat [Bound; plus local_set; Chr "@"; plus domain_set; Chr ".";
       Rep 2 None tld_set; Bound].

(** [\b(?:\+?1[-.]?)?\(?([0-9]{3})\)?[-.]?([0-9]{3})[-.]?([0-9]{4})\b] *)
Definition phone_re : regex :=
  cat [Bound;
       Opt (cat [maybe [IChr "+"%char]; Chr "1"; maybe dash_dot]);
       maybe [IChr "("%char]; Group 1 (times 3 digits09);
       maybe [IChr ")"%char]; maybe dash_dot; Group 2 (times 3 digits09);
       maybe dash_dot; Group 3 (times 4 digits09); Bound].

(** [\b\d{3}-\d{2}-\d{4}\b] *)
Definition ssn_re : regex :=
  cat [Bound; times 3 [IDigit]; Chr "-"; times 2 [IDigit]; Chr "-";
       times 4 [IDigit]; Bound].

(** [\b\d{4}[-\s]?\d{4}[-\s]?\d{4}[-\s]?\d{4}\b] *)
Definition credit_card_re : regex :=
  cat [Bound; times 4 [IDigit]; maybe dash_space; times 4 [IDigit];
       maybe dash_space; times 4 [IDigit]; maybe dash_space;
       times 4 [IDigit]; Bound].

(** [\b\d{1,3}\.\d{1,3}\.\d{1,3}\.\d{1,3}\b] *)
Definition ip_address_re : regex :=
  cat [Bound; Rep 1 (Some 3) [IDigit]; Chr "."; Rep 1 (Some 3) [IDigit];
       Chr "."; Rep 1 (Some 3) [IDigit]; Chr "."; Rep 1 (Some 3) [IDigit];
       Bound].

(** [\b\d+\s+[A-Za-z]+\s+(?:Street|St|Avenue|Ave|Road|Rd|Boulevard|Blvd|Lane|Ln|Drive|Dr)\b] *)
Definition address_re : regex :=
  cat [Bound; plus [IDigit]; plus [ISpace]; plus letters; plus [ISpace];
       alts (lit "Street")
         (map lit ["St"; "Avenue"; "Ave"; "Road"; "Rd"; "Boulevard"; "Blvd";
                   "Lane"; "Ln"; "Drive"; "Dr"]);
       Bound].

(** The dict literal [PATTERNS], in its insertion order. *)
Definition PATTERNS : list (string * regex) :=
  [("email", email_re); ("phone", phone_re); ("ssn", ssn_re);
   ("credit_card", credit_card_re); ("ip_address", ip_address_re);
   ("address", address_re)].

(** ** The validator *)

(** The floats [1.0] and [0.0]. *)
Definition f_one : spec_float := S754_finite false 4503599627370496 (-52).
Definition f_zero : spec_float := S754_zero false.

Record PIIDetectionResult : Type := {
  has_pii : bool;
  pii_types : list string;
  confidence : spec_float;
  details : list string;
  safe_to_send : bool
}.

Record PIIValidator : Type := {
  enabled : bool;
  threshold : spec_float
}.

Definition _mask (value : text) : text :=
  if length value <=? 4 then chars "***"
  else firstn 2 value ++ chars "***" ++ skipn (length value - 2) value.

Definition found_prefix (pii_type : string) : string :=
  ("Found " ++ pii_type ++ ": ")%string.

(** The body of the loop of [_detect_patterns], for one registry entry. *)
Definition detect_entry (content : string) (entry : string * regex)
    : list (string * string) :=
  let (pii_type, pattern) := entry in
  match findall pattern content IGNORECASE with
  | Tuples matches =>
      map (fun m =>
             (pii_type,
              (found_prefix pii_type ++ str (join (chars "-") m))%string))
          matches
  | Strs matches =>
      map (fun m =>
             (pii_type, (found_prefix pii_type ++ str (_mask m))%string))
          matches
  end.

Definition _detect_patterns (content : string) : list (string * string) :=
  flat_map (detect_entry content) PATTERNS.

Definition validate (self : PIIValidator) (content : string)
    : PIIDetectionResult :=
  if negb (enabled self) then
    {| has_pii := false; pii_types := []; confidence := f_one;
       details := []; safe_to_send := true |}
  else
    let detected_pii := _detect_patterns content in
    let has_pii := 0 <? length detected_pii in
    let confidence :=
      match detected_pii with
      | [] => f_zero
      | _ :: _ => f_one
      end in
    let safe_to_send := negb has_pii || SFltb confidence (threshold self) in
    {| has_pii := has_pii;
       pii_types := map fst detected_pii;
       confidence := confidence;
       details := map snd detected_pii;
       safe_to_send := safe_to_send |}.

(** The replacement callable of the email branch:
    ['[EMAIL_REDACTED]@' + m.group(0).split('@')[1]]; [None] stands for the
    [IndexError] of an index out of range. *)
Definition email_repl (m : rmatch) : option string :=
  match nth_error (split_on "@" (whole m)) 1 with
  | Some domain => Some ("[EMAIL_REDACTED]@" ++ str domain)%string
  | None => None
  end.

(** One turn of the loop of [sanitize]. *)
Definition sanitize_step (sanitized : string) (entry : string * regex)
    : option string :=
  let (pii_type, pattern) := entry in
  if String.eqb pii_type "email" then
    sub_with pattern email_repl sanitized IGNORECASE
  else if String.eqb pii_type "phone" then
    sub pattern "[PHONE_REDACTED]" sanitized NOFLAGS
  else if String.eqb pii_type "ssn" then
    sub pattern "[SSN_REDACTED]" sanitized NOFLAGS
  else if String.eqb pii_type "credit_card" then
    sub pattern "[CARD_REDACTED]" sanitized NOFLAGS
  else
    sub pattern ("[" ++ str_upper pii_type ++ "_REDACTED]")%string sanitized
      IGNORECASE.

Definition sanitize (content : string) : option string :=
  fold_left
    (fun acc entry =>
       match acc with
       | Some sanitized => sanitize_step sanitized entry
       | None => None
       end)
    PATTERNS (Some content).

(** * A declarative reading of the patterns *)

(** The last character passed after reading [w] from a position whose
    previous character was [pv]. *)
Fixpoint lastp (pv : option ascii) (w : text) : option ascii :=
  match w with
  | [] => pv
  | c :: w' => lastp (Some c) w'
  end.

Definition fits (hi : option nat) (n : nat) : Prop :=
  match hi with
  | None => True
  | Some h => n <= h
  end.

(** [matches ic r pv w nx]: between a position preceded by [pv] and a
    position followed by [nx], the pattern [r] can read exactly [w]. *)
Fixpoint matches (ic : bool) (r : regex) (pv : option ascii) (w nx : text)
    : Prop :=
  match r with
  | Eps => w = []
  | Bound => w = [] /\ at_boundary pv nx = true
  | Chr c => exists x, w = [x] /\ chr_match ic x c = true
  | Cls s => exists x, w = [x] /\ set_match ic s x = true
  | Seq r1 r2 =>
      exists w1 w2,
        w = w1 ++ w2 /\ matches ic r1 pv w1 (w2 ++ nx)
        /\ matches ic r2 (lastp pv w1) w2 nx
  | Alt r1 r2 => matches ic r1 pv w nx \/ matches ic r2 pv w nx
  | Group _ r' => matches ic r' pv w nx
  | Opt r' => matches ic r' pv w nx \/ w = []
  | Rep lo hi s =>
      Forall (fun x => set_match ic s x = true) w
      /\ lo <= length w /\ fits hi (length w)
  end.

(** A pattern is blind to [re.IGNORECASE] when none of its characters and
    sets tells a character from its other case. *)
Definition set_blind (cs : charset) : Prop :=
  forall c, set_match true cs c = set_match false cs c.

Definition chr_blind (c : ascii) : Prop :=
  forall x, chr_match true x c = chr_match false x c.

Fixpoint case_blind (r : regex) : Prop :=
  match r with
  | Eps | Bound => True
  | Chr c => chr_blind c
  | Cls s => set_blind s
  | Seq r1 r2 | Alt r1 r2 => case_blind r1 /\ case_blind r2
  | Group _ r' | Opt r' => case_blind r'
  | Rep _ _ s => set_blind s
  end.

(** ** The specification's reading of [sanitize] *)

(** A global find-and-replace that cannot fail: every match gives way to
    what [rule] makes of the matched text. *)
Fixpoint fill (rule : rmatch -> text) (ps : list piece) : text :=
  match ps with
  | [] => []
  | Gap c :: ps' => c :: fill rule ps'
  | Hit m :: ps' => rule m ++ fill rule ps'
  end.

Definition replace_all (pattern : regex) (rule : text -> string) (s : string)
    : string :=
  str (fill (fun m => chars (rule (whole m)))
         (scan IGNORECASE pattern None (chars s) 0)).

(** Everything after the first ['@']. *)
Fixpoint after_at (w : text) : text :=
  match w with
  | [] => []
  | c :: w' => if Ascii.eqb c "@" then w' else after_at w'
  end.

(** The email rule: the token for the local part, then ['@'] and the
    domain of the matched text. *)
Definition keep_domain (matched : text) : string :=
  ("[EMAIL_REDACTED]@" ++ str (after_at matched))%string.

Definition token (t : string) (_ : text) : string := t.

(** The six passes in registry order, each over the output of the one
    before. *)
Definition sanitize_sequential (content : string) : string :=
  let after_email := replace_all email_re keep_domain content in
  let after_phone := replace_all phone_re (token "[PHONE_REDACTED]") after_email in
  let after_ssn := replace_all ssn_re (token "[SSN_REDACTED]") after_phone in
  let after_card :=
    replace_all credit_card_re (token "[CARD_REDACTED]") after_ssn in
  let after_ip :=
    replace_all ip_address_re (token "[IP_ADDRESS_REDACTED]") after_card in
  replace_all address_re (token "[ADDRESS_REDACTED]") after_ip.

(** Whether a text ends, or starts, on a word character. *)
Definition ends_on_word (s : string) : bool := word_opt (lastp None (chars s)).
Definition starts_on_word (s : string) : bool := word_opt (hd_error (chars s)).

(** The float [2.0]. *)
Definition f_two : spec_float := S754_finite false 4503599627370496 (-51).

(** A text that is, on its own, one match of the email pattern. *)
Definition is_email (s : string) : bool :=
  match re_fullmatch IGNORECASE email_re (chars s) with
  | Some _ => true
  | None => false
  end.

(** Whether some detector of the registry finds a match in [content]. *)
Definition matched_somewhere (content : string) : bool :=
  existsb
    (fun entry : string * regex =>
       0 <? length (re_finditer IGNORECASE (snd entry) (chars content)))
    PATTERNS.

(** The result of the disabled engine. *)
Definition bypass_result : PIIDetectionResult :=
  {| has_pii := false; pii_types := []; confidence := f_one;
     details := []; safe_to_send := true |}.

(** ** What a pass leaves behind *)

(** The text a list of pieces was cut from. *)
Fixpoint source (ps : list piece) : text :=
  match ps with
  | [] => []
  | Gap c :: ps' => c :: source ps'
  | Hit m :: ps' => whole m ++ source ps'
  end.

(** What a scan promises about its pieces, read from a position preceded
    by [pv]: a hit is a reading of the pattern in its place, and at a gap
    the match attempt failed. *)
Fixpoint settled (ic : bool) (r : regex) (pv : option ascii)
    (ps : list piece) : Prop :=
  match ps with
  | [] => True
  | Gap c :: ps' =>
      attempt ic r false pv (c :: source ps') = None
      /\ settled ic r (Some c) ps'
  | Hit m :: ps' =>
      matches ic r pv (whole m) (source ps')
      /\ settled ic r (lastp pv (whole m)) ps'
  end.

(** No part of [t] can be read by the pattern. *)
Definition free_of (ic : bool) (r : regex) (t : text) : Prop :=
  forall pre w post,
    t = pre ++ w ++ post -> ~ matches ic r (lastp None pre) w post.

(** Every reading of the pattern starts and ends on a word boundary. *)
Definition bounded (r : regex) : Prop :=
  forall pv w nx,
    matches true r pv w nx ->
    at_boundary pv (w ++ nx) = true /\ at_boundary (lastp pv w) nx = true.

(** The characters of the redaction tokens. *)
Definition token_char (c : ascii) : bool :=
  between 65 90 c || Ascii.eqb c "_" || Ascii.eqb c "[" || Ascii.eqb c "]".

(** A redaction token: bracketed, made of token characters. *)
Definition is_token (tok : text) : Prop :=
  (exists body, tok = "["%char :: body)
  /\ (forall pv, word_opt (lastp pv tok) = false)
  /\ Forall (fun c => token_char c = true) tok.

(** Every reading of the pattern starts outside the token characters and
    never takes an opening bracket. *)
Definition plain (r : regex) : Prop :=
  forall pv w nx,
    matches true r pv w nx ->
    (exists c w', w = c :: w' /\ token_char c = false) /\ ~ In "["%char w.

(** Every character the pattern can take satisfies [f]. *)
Fixpoint only (f : ascii -> bool) (r : regex) : Prop :=
  match r with
  | Eps | Bound => True
  | Chr c => forall x, chr_match true x c = true -> f x = true
  | Cls s | Rep _ _ s => forall x, set_match true s x = true -> f x = true
  | Seq r1 r2 | Alt r1 r2 => only f r1 /\ only f r2
  | Group _ r' | Opt r' => only f r'
  end.

(** The least number of characters a reading takes. *)
Fixpoint min_len (r : regex) : nat :=
  match r with
  | Eps | Bound | Opt _ => 0
  | Chr _ | Cls _ => 1
  | Seq r1 r2 => min_len r1 + min_len r2
  | Alt r1 r2 => Nat.min (min_len r1) (min_len r2)
  | Group _ r' => min_len r'
  | Rep lo _ _ => lo
  end.

(** The declarative reading with the captures: reading [w] turns the
    captures [cs] into [cs']. *)
Fixpoint binds (ic : bool) (r : regex) (pv : option ascii) (w nx : text)
    (cs cs' : caps) : Prop :=
  match r with
  | Eps => w = [] /\ cs' = cs
  | Bound => w = [] /\ at_boundary pv nx = true /\ cs' = cs
  | Chr c => (exists x, w = [x] /\ chr_match ic x c = true) /\ cs' = cs
  | Cls s => (exists x, w = [x] /\ set_match ic s x = true) /\ cs' = cs
  | Seq r1 r2 =>
      exists w1 w2 cs1,
        w = w1 ++ w2 /\ binds ic r1 pv w1 (w2 ++ nx) cs cs1
        /\ binds ic r2 (lastp pv w1) w2 nx cs1 cs'
  | Alt r1 r2 => binds ic r1 pv w nx cs cs' \/ binds ic r2 pv w nx cs cs'
  | Group n r' => exists cs1, binds ic r' pv w nx cs cs1 /\ cs' = (n, w) :: cs1
  | Opt r' => binds ic r' pv w nx cs cs' \/ (w = [] /\ cs' = cs)
  | Rep lo hi s =>
      (Forall (fun x => set_match ic s x = true) w
       /\ lo <= length w /\ fits hi (length w))
      /\ cs' = cs
  end.

(** How many opening brackets a text holds. *)
Definition brackets (t : text) : nat := count_occ ascii_dec t "["%char.

(** A text of [n] decimal digits. *)
Definition digit_run (n : nat) (t : text) : Prop :=
  length t = n /\ Forall (fun c => is_digit c = true) t.

(** * The drafter: [agents/drafter.py]

    The language-model chain is a parameter: [invoke] is
    [chain.invoke], [None] when it raises.  An exception that leaves a
    function is its result [None].  Console output is not modelled. *)

Definition nl : string := String "010" EmptyString.

(** [d.get(key, default)] on a key that is absent ([None]) or present. *)
Definition py_get (A : Type) (value : option A) (default : A) : A :=
  match value with
  | Some x => x
  | None => default
  end.


(** [sep.join(items)] on strings. *)
Definition join_strs (sep : string) (items : list string) : string :=
  str (join (chars sep) (map chars items)).

(** [sep.join(items)] when an item may be [None]: a [TypeError] then. *)
Fixpoint all_strs (items : list (option string)) : option (list string) :=
  match items with
  | [] => Some []
  | Some s :: items' => option_map (cons s) (all_strs items')
  | None :: _ => None
  end.

Definition join_any (sep : string) (items : list (option string))
    : option string :=
  option_map (join_strs sep) (all_strs items).

Module Draft.
Record EmailDraft : Type := {
  subject : string;
  body : string;
  tone : string;
  signature : option string;
  has_pii : bool;
  is_safe : bool
}.
End Draft.

(** The [plan] dict through the keys [draft] reads, each absent or
    holding a value of the type [EmailPlan] gives it; a recipient may be
    [None], as [generate_reply] can make it. *)
Module Plan.
Record dict : Type := {
  intent : option string;
  tone : option string;
  recipients : option (list (option string));
  key_points : option (list string);
  subject : option string
}.
End Plan.

(** The [context] dict through its keys ['emails'] and ['summary']. *)
Module Context.
Record dict (E : Type) : Type := {
  emails : option (list E);
  summary : option string
}.
Arguments emails {E} _.
Arguments summary {E} _.
End Context.

(** The dict handed to [chain.invoke]. *)
Module Prompt.
Record inputs : Type := {
  request : string;
  intent : string;
  tone : string;
  recipients : string;
  key_points : string;
  context_section : string;
  format_instructions : string
}.
End Prompt.

(** An email dict through the keys [generate_reply] reads. *)
Module Mail.
Record dict : Type := {
  from : option string;
  subject : option string;
  body : option string;
  snippet : option string
}.
End Mail.

(** Truth value of [context and context.get('emails')]. *)
Definition has_emails (E : Type) (context : option (Context.dict E)) : bool :=
  match context with
  | Some c =>
      match Context.emails c with
      | Some (_ :: _) => true
      | _ => false
      end
  | None => false
  end.

Section DrafterAgent.
Variable E : Type.
Variable invoke : Prompt.inputs -> option Draft.EmailDraft.
Variable get_format_instructions : string.
Variable pii_validator : PIIValidator.

(** Lines 96 to 114 and the dict of line 120: what the chain is given. *)
Definition prompt_inputs (user_request : string) (plan : Plan.dict)
    (context : option (Context.dict E)) : option Prompt.inputs :=
  let context_section :=
    if has_emails context then
      match context with
      | Some c =>
          (nl ++ "Context from Previous Emails:" ++ nl
           ++ py_get (Context.summary c) "No summary available" ++ nl)%string
      | None => ""%string
      end
    else ""%string in
  let intent := py_get (Plan.intent plan) "compose"%string in
  let tone := py_get (Plan.tone plan) "professional"%string in
  match join_any ", " (py_get (Plan.recipients plan) [Some "recipient"%string])
  with
  | None => None
  | Some recipients =>
      let key_points :=
        join_strs (nl ++ "- ") (py_get (Plan.key_points plan) [user_request]) in
      let scrubbed :=
        if enabled pii_validator then
          match sanitize user_request, sanitize key_points,
                sanitize context_section with
          | Some r, Some k, Some c => Some (r, k, c)
          | _, _, _ => None
          end
        else Some (user_request, key_points, context_section) in
      match scrubbed with
      | None => None
      | Some (r, k, c) =>
          Some {| Prompt.request := r; Prompt.intent := intent;
                  Prompt.tone := tone; Prompt.recipients := recipients;
                  Prompt.key_points := k; Prompt.context_section := c;
                  Prompt.format_instructions := get_format_instructions |}
      end
  end.

(** The draft of the [except] branch. *)
Definition fallback_draft (plan : Plan.dict) (inputs : Prompt.inputs)
    : Draft.EmailDraft :=
  {| Draft.subject := py_get (Plan.subject plan) "No subject"%string;
     Draft.body :=
       ("Hello," ++ nl ++ nl ++ Prompt.request inputs ++ nl ++ nl
        ++ "Best regards,")%string;
     Draft.tone := Prompt.tone inputs;
     Draft.signature := None;
     Draft.has_pii := false;
     Draft.is_safe := true |}.

(** The [try] block after the chain has answered [draft]. *)
Definition screen_draft (draft : Draft.EmailDraft)
    : option Draft.EmailDraft :=
  let pii_result := validate pii_validator (Draft.body draft) in
  let flagged :=
    {| Draft.subject := Draft.subject draft;
       Draft.body := Draft.body draft;
       Draft.tone := Draft.tone draft;
       Draft.signature := Draft.signature draft;
       Draft.has_pii := has_pii pii_result;
       Draft.is_safe := safe_to_send pii_result |} in
  if negb (Draft.is_safe flagged) then
    match sanitize (Draft.body flagged) with
    | Some sanitized =>
        Some {| Draft.subject := Draft.subject flagged;
                Draft.body := sanitized;
                Draft.tone := Draft.tone flagged;
                Draft.signature := Draft.signature flagged;
                Draft.has_pii := Draft.has_pii flagged;
                Draft.is_safe := Draft.is_safe flagged |}
    | None => None
    end
  else Some flagged.

Definition draft (user_request : string) (plan : Plan.dict)
    (context : option (Context.dict E)) : option Draft.EmailDraft :=
  match prompt_inputs user_request plan context with
  | None => None
  | Some inputs =>
      match invoke inputs with
      | Some answered =>
          match screen_draft answered with
          | Some screened => Some screened
          | None => Some (fallback_draft plan inputs)
          end
      | None => Some (fallback_draft plan inputs)
      end
  end.

End DrafterAgent.

Section GenerateReply.
Variable invoke : Prompt.inputs -> option Draft.EmailDraft.
Variable get_format_instructions : string.
Variable pii_validator : PIIValidator.

End GenerateReply.

(** * The retriever and the workflow: [agents/retriever.py], [main.py]

    The Gmail search, the planner's chain and the Gmail send are
    parameters.  The mails handed to [send_email] are collected in the
    order of the calls. *)

(** [RetrieverAgent._summarize_emails]. *)
Definition summarize_one (email : Mail.dict) : string :=
  ("From: " ++ py_get (Mail.from email) "Unknown" ++ nl
   ++ "Subject: " ++ py_get (Mail.subject email) "No subject" ++ nl
   ++ "Snippet: " ++ str (firstn 100 (chars (py_get (Mail.snippet email) "")))
   ++ "..." ++ nl)%string.

Definition _summarize_emails (emails : list Mail.dict) : string :=
  match emails with
  | [] => "No relevant emails found."%string
  | _ :: _ =>
      join_strs (nl ++ "---" ++ nl) (map summarize_one (firstn 5 emails))
  end.

(** An email cut down to what a summary shows of it. *)
Definition clipped (email : Mail.dict) : Mail.dict :=
  {| Mail.from := Mail.from email;
     Mail.subject := Mail.subject email;
     Mail.body := None;
     Mail.snippet :=
       Some (str (firstn 100 (chars (py_get (Mail.snippet email) "")))) |}.

(** The dict [retrieve_context] returns. *)
Module Retrieved.
Record dict : Type := {
  query : string;
  emails_found : nat;
  emails : list Mail.dict;
  summary : string
}.
End Retrieved.

(** The plan the planner returns; [meeting_details] is of a type this
    workflow never looks into. *)
Module Planned.
Record EmailPlan (M : Type) : Type := {
  intent : string;
  requires_context : bool;
  context_query : string;
  recipients : list string;
  subject : string;
  key_points : list string;
  tone : string;
  requires_calendar : bool;
  meeting_details : M
}.
Arguments intent {M} _.
Arguments requires_context {M} _.
Arguments context_query {M} _.
Arguments recipients {M} _.
Arguments subject {M} _.
Arguments key_points {M} _.
Arguments tone {M} _.
Arguments requires_calendar {M} _.
Arguments meeting_details {M} _.
End Planned.

(** A call of [GmailTools.send_email]. *)
Module Sent.
Record mail : Type := { to : string; subject : string; body : string }.
End Sent.

(** The dict [process_request] returns. *)
Module Outcome.
Record dict (M : Type) : Type := {
  plan : Planned.EmailPlan M;
  context : option Retrieved.dict;
  draft : Draft.EmailDraft;
  sent : bool
}.
Arguments plan {M} _.
Arguments context {M} _.
Arguments draft {M} _.
Arguments sent {M} _.
End Outcome.

(** [plan.dict()], through the keys [draft] reads. *)
Definition plan_dict (M : Type) (plan : Planned.EmailPlan M) : Plan.dict :=
  {| Plan.intent := Some (Planned.intent plan);
     Plan.tone := Some (Planned.tone plan);
     Plan.recipients := Some (map Some (Planned.recipients plan));
     Plan.key_points := Some (Planned.key_points plan);
     Plan.subject := Some (Planned.subject plan) |}.

(** The retrieved context, through the keys [draft] reads. *)
Definition context_dict (context : Retrieved.dict) : Context.dict Mail.dict :=
  {| Context.emails := Some (Retrieved.emails context);
     Context.summary := Some (Retrieved.summary context) |}.

Section Assistant.
Variable M : Type.
Variable search_emails : string -> nat -> list Mail.dict.
Variable MAX_SEARCH_RESULTS : nat.
Variable planner_plan : string -> Planned.EmailPlan M.
Variable invoke : Prompt.inputs -> option Draft.EmailDraft.
Variable get_format_instructions : string.
Variable pii_validator : PIIValidator.

Definition retrieve_context (query : string) (max_results : nat)
    : Retrieved.dict :=
  let emails := search_emails query max_results in
  {| Retrieved.query := query;
     Retrieved.emails_found := length emails;
     Retrieved.emails := emails;
     Retrieved.summary := _summarize_emails emails |}.

Definition search_by_sender (sender : string) (max_results : nat)
    : Retrieved.dict :=
  retrieve_context ("from:" ++ sender) max_results.

Definition search_by_subject (subject : string) (max_results : nat)
    : Retrieved.dict :=
  retrieve_context ("subject:" ++ subject) max_results.

Definition get_recent_conversation (contact : string) : Retrieved.dict :=
  retrieve_context ("(from:" ++ contact ++ " OR to:" ++ contact ++ ")") 20.

(** [process_request]: its result and the mails it had sent, [None] when
    the drafter raises. *)
Definition process_request (user_request : string) (auto_send : bool)
    : option (Outcome.dict M * list Sent.mail) :=
  let plan := planner_plan user_request in
  let context :=
    if Planned.requires_context plan
       && negb (String.eqb (Planned.context_query plan) "")
    then Some (retrieve_context (Planned.context_query plan)
                 MAX_SEARCH_RESULTS)
    else None in
  match draft invoke get_format_instructions pii_validator user_request
          (plan_dict plan) (option_map context_dict context) with
  | None => None
  | Some drafted =>
      let mails :=
        if auto_send && Draft.is_safe drafted then
          match Planned.recipients plan with
          | recipient :: _ =>
              [{| Sent.to := recipient;
                  Sent.subject := Draft.subject drafted;
                  Sent.body := Draft.body drafted |}]
          | [] => []
          end
        else [] in
      Some ({| Outcome.plan := plan; Outcome.context := context;
               Outcome.draft := drafted;
               Outcome.sent := auto_send && Draft.is_safe drafted |},
            mails)
  end.
End Assistant.

(** * The planner's helpers: [agents/planner.py] *)

(** [s.lower()]. *)
Definition str_lower (s : string) : string := str (map lower (chars s)).

(** [any(word in s for word in words)]. *)
Definition any_in (words : list string) (s : string) : bool :=
  existsb (fun word => contains s word) words.

Definition analyze_intent (user_request : string) : string :=
  let request_lower := str_lower user_request in
  if any_in ["reply"; "respond"; "answer"]%string request_lower then
    "reply"%string
  else if any_in ["meeting"; "schedule"; "calendar"]%string request_lower then
    "schedule_meeting"%string
  else if any_in ["forward"; "fwd"]%string request_lower then
    "forward"%string
  else if any_in ["search"; "find"; "look for"]%string request_lower then
    "search"%string
  else "compose"%string.

(** [re.findall(email_pattern, user_request)], without flags. *)
Definition extract_recipients (user_request : string) : list string :=
  match findall email_re user_request NOFLAGS with
  | Strs matches => map str matches
  | Tuples _ => []
  end.

(** The order in which [analyze_intent] tries the intents, last first. *)
Definition intent_rank (intent : string) : nat :=
  if String.eqb intent "reply" then 4
  else if String.eqb intent "schedule_meeting" then 3
  else if String.eqb intent "forward" then 2
  else if String.eqb intent "search" then 1
  else 0.

(** Every reading of the pattern takes a character that satisfies [f]. *)
Fixpoint needs (f : ascii -> bool) (r : regex) : Prop :=
  match r with
  | Eps | Bound | Opt _ => False
  | Chr c => forall x, chr_match true x c = true -> f x = true
  | Cls s => forall x, set_match true s x = true -> f x = true
  | Seq r1 r2 => needs f r1 \/ needs f r2
  | Alt r1 r2 => needs f r1 /\ needs f r2
  | Group _ r' => needs f r'
  | Rep lo _ s =>
      1 <= lo /\ forall x, set_match true s x = true -> f x = true
  end.

(** A digit or an ['@']: what every pattern of the registry asks for. *)
Definition digit_or_at (c : ascii) : bool := is_digit c || Ascii.eqb c "@".

(** * The date and time parser: [utils/datetime_parser.py]

    A [datetime] is read by its wall-clock fields, the date as its
    proleptic Gregorian ordinal, which is how [datetime] arithmetic treats
    an aware value too.  The current time [now], the name [tz] of the time
    zone and the interpreter's limit [max_str_digits] on [int()] are
    parameters.  An exception that leaves [parse] is its result [None]. *)

Module Clock.
Record datetime : Type := {
  ordinal : Z;
  hour : Z;
  minute : Z;
  second : Z;
  microsecond : Z
}.
End Clock.

(** [date.max.toordinal()]. *)
Definition MAX_ORDINAL : Z := 3652059.

(** [dt + timedelta(days=n)], an [OverflowError] outside the calendar. *)
Definition add_days (dt : Clock.datetime) (n : Z) : option Clock.datetime :=
  let day := (Clock.ordinal dt + n)%Z in
  if ((1 <=? day) && (day <=? MAX_ORDINAL))%Z then
    Some {| Clock.ordinal := day; Clock.hour := Clock.hour dt;
            Clock.minute := Clock.minute dt; Clock.second := Clock.second dt;
            Clock.microsecond := Clock.microsecond dt |}
  else None.

(** [dt + timedelta(minutes=n)]. *)
Definition add_minutes (dt : Clock.datetime) (n : Z) : option Clock.datetime :=
  let total := (Clock.hour dt * 60 + Clock.minute dt + n)%Z in
  add_days
    {| Clock.ordinal := Clock.ordinal dt;
       Clock.hour := ((total mod 1440) / 60)%Z;
       Clock.minute := (total mod 60)%Z;
       Clock.second := Clock.second dt;
       Clock.microsecond := Clock.microsecond dt |}
    (total / 1440)%Z.

(** [dt.replace(hour=h, minute=m, second=0, microsecond=0)], a
    [ValueError] for an hour above 23 or a minute above 59. *)
Definition replace_time (dt : Clock.datetime) (h m : Z)
    : option Clock.datetime :=
  if ((0 <=? h) && (h <=? 23) && (0 <=? m) && (m <=? 59))%Z then
    Some {| Clock.ordinal := Clock.ordinal dt; Clock.hour := h;
            Clock.minute := m; Clock.second := 0%Z;
            Clock.microsecond := 0%Z |}
  else None.

Definition digit_value (c : ascii) : Z := (Z.of_N (code c) - 48)%Z.

(** [int(s)] on a text of decimal digits: a [ValueError] for more than
    [max_str_digits] digits, a limit the interpreter looks at beyond 640
    digits and that 0 switches off. *)
Definition int_of (max_str_digits : nat) (digits : text) : option Z :=
  if (640 <? length digits) && (0 <? max_str_digits)
     && (max_str_digits <? length digits)
  then None
  else Some (fold_left (fun acc c => (10 * acc + digit_value c)%Z) digits 0%Z).

(** [s.strip()]. *)
Fixpoint lstrip (t : text) : text :=
  match t with
  | c :: t' => if is_space c then lstrip t' else t
  | [] => []
  end.

Definition str_strip (s : string) : string :=
  str (rev (lstrip (rev (lstrip (chars s))))).

(** [re.search]: the leftmost match. *)
Definition re_search (ic : bool) (r : regex) (s : text) : option rmatch :=
  hd_error (re_finditer ic r s).

(** [(\d{1,2})(?::(\d{2}))?\s*(am|pm)?] *)
Definition time_re : regex :=
  cat [Group 1 (Rep 1 (Some 2) [IDigit]);
       Opt (Seq (Chr ":") (Group 2 (times 2 [IDigit])));
       Rep 0 None [ISpace];
       Opt (Group 3 (Alt (lit "am") (lit "pm")))].

(** [(\d+)\s*(hour|hr|minute|min)] *)
Definition duration_re : regex :=
  cat [Group 1 (plus [IDigit]); Rep 0 None [ISpace];
       Group 2 (alts (lit "hour") [lit "hr"; lit "minute"; lit "min"])].

Module Slot.
Record dict : Type := {
  start : Clock.datetime;
  end_ : Clock.datetime;
  duration_minutes : Z;
  timezone : string
}.
End Slot.

(** [group == s] for a group that may be [None]. *)
Definition same_text (t : option text) (s : string) : bool :=
  match t with
  | Some t' => String.eqb (str t') s
  | None => false
  end.

Section DateTimeParser.
Variable now : Clock.datetime.
Variable tz : string.
Variable max_str_digits : nat.

Definition parse (text : string) : option Slot.dict :=
  let text := str_strip (str_lower text) in
  let base_date :=
    if contains text "tomorrow" then add_days now 1
    else if contains text "next week" then add_days now 7
    else if contains text "next month" then add_days now 30
    else if contains text "today" || contains text "this" then Some now
    else Some now in
  match base_date with
  | None => None
  | Some base_date =>
      let start_time :=
        match re_search NOFLAGS time_re (chars text) with
        | Some time_match =>
            match int_of max_str_digits (group_or_empty time_match 1) with
            | None => None
            | Some hour =>
                let minute :=
                  match group_lookup 2 (groups time_match) with
                  | Some ((_ :: _) as digits) => int_of max_str_digits digits
                  | _ => Some 0%Z
                  end in
                match minute with
                | None => None
                | Some minute =>
                    let meridiem := group_lookup 3 (groups time_match) in
                    let hour :=
                      if same_text meridiem "pm" && (hour <? 12)%Z
                      then (hour + 12)%Z
                      else if same_text meridiem "am" && (hour =? 12)%Z
                      then 0%Z
                      else hour in
                    replace_time base_date hour minute
                end
            end
        | None =>
            if (Clock.ordinal now <? Clock.ordinal base_date)%Z then
              replace_time base_date 9 0
            else Some base_date
        end in
      match start_time with
      | None => None
      | Some start_time =>
          let duration_minutes :=
            match re_search NOFLAGS duration_re (chars text) with
            | Some duration_match =>
                match
                  int_of max_str_digits (group_or_empty duration_match 1)
                with
                | None => None
                | Some value =>
                    let unit := str (group_or_empty duration_match 2) in
                    if contains unit "hour" || contains unit "hr"
                    then Some (value * 60)%Z else Some value
                end
            | None => Some 60%Z
            end in
          match duration_minutes with
          | None => None
          | Some duration_minutes =>
              match add_minutes start_time duration_minutes with
              | None => None
              | Some end_time =>
                  Some {| Slot.start := start_time; Slot.end_ := end_time;
                          Slot.duration_minutes := duration_minutes;
                          Slot.timezone := tz |}
              end
          end
      end
  end.

(** [parse_date]: the result of [parse] is a dict with four keys, so it
    always counts as true and its start is returned. *)
Definition parse_date (text : string) : option (option Clock.datetime) :=
  match parse text with
  | Some result => Some (Some (Slot.start result))
  | None => None
  end.
End DateTimeParser.

(** The group numbers a pattern writes. *)
Fixpoint names (r : regex) : list nat :=
  match r with
  | Seq r1 r2 | Alt r1 r2 => names r1 ++ names r2
  | Group n r' => n :: names r'
  | Opt r' => names r'
  | _ => []
  end.

(** A calendar moment with room for a month and an hour ahead. *)
Definition in_calendar (dt : Clock.datetime) : Prop :=
  (1 <= Clock.ordinal dt /\ Clock.ordinal dt + 31 <= MAX_ORDINAL
   /\ 0 <= Clock.hour dt < 24 /\ 0 <= Clock.minute dt < 60)%Z.

(** * Properties of the matcher *)

#[global] Arguments set_match : simpl never.
#[global] Arguments chr_match : simpl never.
#[global] Arguments at_boundary : simpl never.

Lemma lastp_app (pv : option ascii) (w1 w2 : text) :
  lastp pv (w1 ++ w2) = lastp (lastp pv w1) w2.
Proof.
  revert pv. induction w1 as [|c w1 IH]; intros pv; simpl; [reflexivity|].
  apply IH.
Qed.

Lemma eaten_app (w nx : text) : eaten (w ++ nx) nx = w.
Proof.
  unfold eaten. rewrite length_app.
  replace (length w + length nx - length nx) with (length w) by lia.
  rewrite firstn_app, Nat.sub_diag, firstn_all. simpl. apply app_nil_r.
Qed.

Section ExecFacts.
Variable A : Type.
Variable ic : bool.

Lemma rep_one_sound (s : charset) (rs : text) :
  forall lo hi pv (k : option ascii -> text -> option A) a,
    rep_one ic s lo hi pv rs k = Some a ->
    exists w nx,
      rs = w ++ nx /\ Forall (fun x => set_match ic s x = true) w
      /\ lo <= length w /\ fits hi (length w)
      /\ k (lastp pv w) nx = Some a.
Proof.
  assert (Hstop : forall lo hi pv rs0 (k : option ascii -> text -> option A) a,
             (if lo =? 0 then k pv rs0 else None) = Some a ->
             exists w nx,
               rs0 = w ++ nx /\ Forall (fun x => set_match ic s x = true) w
               /\ lo <= length w /\ fits hi (length w)
               /\ k (lastp pv w) nx = Some a).
  { intros lo hi pv rs0 k a H.
    destruct (Nat.eqb_spec lo 0) as [->|]; [|discriminate].
    exists [], rs0. simpl. repeat split; auto.
    destruct hi; simpl; lia. }
  induction rs as [|x tl IH]; intros lo hi pv k a H; simpl in H.
  - now apply Hstop.
  - destruct (room hi && set_match ic s x) eqn:Hgo; [|now apply Hstop].
    apply andb_prop in Hgo. destruct Hgo as [Hroom Hx].
    destruct (rep_one ic s (pred lo) (option_map pred hi) (Some x) tl k)
      as [a'|] eqn:Hin; [|now apply Hstop].
    injection H as ->.
    destruct (IH _ _ _ _ _ Hin) as (w & nx & -> & Hall & Hlo & Hhi & Hk).
    exists (x :: w), nx. simpl. repeat split; auto.
    + lia.
    + destruct hi as [[|h]|]; simpl in *; try discriminate; try lia.
Qed.

Lemma rep_one_complete (s : charset) (w : text) :
  forall lo hi pv nx (k : option ascii -> text -> option A),
    Forall (fun x => set_match ic s x = true) w ->
    lo <= length w -> fits hi (length w) ->
    k (lastp pv w) nx <> None ->
    rep_one ic s lo hi pv (w ++ nx) k <> None.
Proof.
  induction w as [|x w IH]; intros lo hi pv nx k Hall Hlo Hhi Hk;
    simpl in *.
  - assert (lo = 0) as -> by lia.
    destruct nx as [|y nx]; simpl; [exact Hk|].
    destruct (room hi && set_match ic s y); [|exact Hk].
    destruct (rep_one ic s 0 (option_map pred hi) (Some y) nx k);
      [discriminate|exact Hk].
  - inversion Hall as [|? ? Hx Hall']; subst.
    assert (Hroom : room hi = true).
    { destruct hi as [[|h]|]; simpl in *; auto; lia. }
    rewrite Hroom, Hx. simpl.
    assert (Hin : rep_one ic s (pred lo) (option_map pred hi) (Some x)
                    (w ++ nx) k <> None).
    { apply IH; auto; [lia|].
      destruct hi as [h|]; simpl in *; [lia|exact I]. }
    destruct (rep_one ic s (pred lo) (option_map pred hi) (Some x)
                (w ++ nx) k); [discriminate|contradiction].
Qed.

(** Whatever the matcher answers, it answers through its continuation,
    at the end of a reading the declarative semantics allows. *)
Lemma exec_sound (r : regex) :
  forall pv rs cs (k : option ascii -> text -> caps -> option A) a,
    exec ic r pv rs cs k = Some a ->
    exists w nx cs',
      rs = w ++ nx /\ matches ic r pv w nx
      /\ k (lastp pv w) nx cs' = Some a.
Proof.
  induction r as [| |c|s|r1 IH1 r2 IH2|r1 IH1 r2 IH2|n r IH|r IH|lo hi s];
    intros pv rs cs k a H; simpl in H.
  - exists [], rs, cs. simpl. auto.
  - destruct (at_boundary pv rs) eqn:Hb; [|discriminate].
    exists [], rs, cs. simpl. auto.
  - destruct rs as [|x tl]; [discriminate|].
    destruct (chr_match ic x c) eqn:Hx; [|discriminate].
    exists [x], tl, cs. simpl. repeat split; eauto.
  - destruct rs as [|x tl]; [discriminate|].
    destruct (set_match ic s x) eqn:Hx; [|discriminate].
    exists [x], tl, cs. simpl. repeat split; eauto.
  - destruct (IH1 _ _ _ _ _ H) as (w1 & nx1 & cs1 & -> & M1 & H1).
    destruct (IH2 _ _ _ _ _ H1) as (w2 & nx & cs2 & -> & M2 & H2).
    exists (w1 ++ w2), nx, cs2. rewrite lastp_app, <- app_assoc.
    repeat split; auto. simpl. exists w1, w2. auto.
  - destruct (exec ic r1 pv rs cs k) as [a'|] eqn:H1.
    + injection H as ->.
      destruct (IH1 _ _ _ _ _ H1) as (w & nx & cs' & -> & M1 & Hk).
      exists w, nx, cs'. simpl. auto.
    + destruct (IH2 _ _ _ _ _ H) as (w & nx & cs' & -> & M2 & Hk).
      exists w, nx, cs'. simpl. auto.
  - destruct (IH _ _ _ _ _ H) as (w & nx & cs' & -> & M1 & Hk).
    exists w, nx, ((n, eaten (w ++ nx) nx) :: cs'). simpl. auto.
  - destruct (exec ic r pv rs cs k) as [a'|] eqn:H1.
    + injection H as ->.
      destruct (IH _ _ _ _ _ H1) as (w & nx & cs' & -> & M1 & Hk).
      exists w, nx, cs'. simpl. auto.
    + exists [], rs, cs. simpl. auto.
  - destruct (rep_one_sound _ _ _ _ _ _ H)
      as (w & nx & -> & Hall & Hlo & Hhi & Hk).
    exists w, nx, cs. simpl. auto.
Qed.

(** The search is exhaustive: a reading the semantics allows, accepted
    by the continuation, makes the matcher answer. *)
Lemma exec_complete (r : regex) :
  forall pv w nx cs (k : option ascii -> text -> caps -> option A),
    matches ic r pv w nx ->
    (forall cs', k (lastp pv w) nx cs' <> None) ->
    exec ic r pv (w ++ nx) cs k <> None.
Proof.
  induction r as [| |c|s|r1 IH1 r2 IH2|r1 IH1 r2 IH2|n r IH|r IH|lo hi s];
    intros pv w nx cs k M Hk; simpl in M |- *.
  - subst w. apply Hk.
  - destruct M as [-> Hb]. simpl. rewrite Hb. apply Hk.
  - destruct M as (x & -> & Hx). simpl. rewrite Hx. apply Hk.
  - destruct M as (x & -> & Hx). simpl. rewrite Hx. apply Hk.
  - destruct M as (w1 & w2 & -> & M1 & M2). rewrite <- app_assoc.
    apply IH1; [exact M1|]. intros cs1. apply IH2; [exact M2|].
    intros cs2. rewrite <- lastp_app. apply Hk.
  - destruct M as [M1|M2].
    + specialize (IH1 _ _ _ cs _ M1 Hk).
      destruct (exec ic r1 pv (w ++ nx) cs k); [discriminate|contradiction].
    + destruct (exec ic r1 pv (w ++ nx) cs k); [discriminate|].
      now apply IH2.
  - apply IH; [exact M|]. intros cs'. apply Hk.
  - destruct M as [M1| ->].
    + specialize (IH _ _ _ cs _ M1 Hk).
      destruct (exec ic r pv (w ++ nx) cs k); [discriminate|contradiction].
    + simpl. destruct (exec ic r pv nx cs k); [discriminate|apply Hk].
  - destruct M as (Hall & Hlo & Hhi).
    apply rep_one_complete; auto.
Qed.
End ExecFacts.

(** [\b] sees of its surroundings only whether they are word characters,
    so a reading survives a change of context that keeps that. *)
Lemma hd_word_app (w a b : text) :
  word_opt (hd_error a) = word_opt (hd_error b) ->
  word_opt (hd_error (w ++ a)) = word_opt (hd_error (w ++ b)).
Proof. destruct w; simpl; auto. Qed.

Lemma lastp_word (w : text) (p q : option ascii) :
  word_opt p = word_opt q -> word_opt (lastp p w) = word_opt (lastp q w).
Proof. destruct w; simpl; auto. Qed.

Lemma matches_context (ic : bool) (r : regex) :
  forall pv pv' w nx nx',
    word_opt pv = word_opt pv' ->
    word_opt (hd_error nx) = word_opt (hd_error nx') ->
    matches ic r pv w nx -> matches ic r pv' w nx'.
Proof.
  induction r as [| |c|s|r1 IH1 r2 IH2|r1 IH1 r2 IH2|n r IH|r IH|lo hi s];
    intros pv pv' w nx nx' Hp Hn M; simpl in M |- *; auto.
  - destruct M as [-> Hb]. split; [reflexivity|].
    unfold at_boundary in *. now rewrite <- Hp, <- Hn.
  - destruct M as (w1 & w2 & -> & M1 & M2). exists w1, w2.
    split; [reflexivity|]. split.
    + eapply IH1; [exact Hp| |exact M1]. now apply hd_word_app.
    + eapply IH2; [|exact Hn|exact M2]. now apply lastp_word.
  - destruct M as [M1|M2]; [left; eapply IH1|right; eapply IH2]; eauto.
  - eapply IH; eauto.
  - destruct M as [M1| ->]; [left; eapply IH|right]; eauto.
Qed.

(** ** Attempts and scans *)

Lemma attempt_sound ic r fl pv rs m :
  attempt ic r fl pv rs = Some m ->
  exists nx, rs = whole m ++ nx /\ matches ic r pv (whole m) nx.
Proof.
  unfold attempt. intros H.
  destruct (exec_sound _ _ _ _ _ _ H) as (w & nx & cs' & -> & M & Hk).
  cbv beta in Hk.
  destruct (fl && (length nx =? length (w ++ nx))); [discriminate|].
  injection Hk as Hm. subst m. simpl. rewrite eaten_app. eauto.
Qed.

Lemma attempt_complete ic r pv w nx :
  matches ic r pv w nx -> attempt ic r false pv (w ++ nx) <> None.
Proof.
  intros M. unfold attempt. eapply exec_complete; [exact M|].
  intros cs'. simpl. discriminate.
Qed.

Lemma fullmatch_sound ic r s m :
  re_fullmatch ic r s = Some m -> matches ic r None s [].
Proof.
  unfold re_fullmatch. intros H.
  destruct (exec_sound _ _ _ _ _ _ H) as (w & nx & cs' & -> & M & Hk).
  cbv beta in Hk. destruct nx; [|discriminate]. now rewrite app_nil_r.
Qed.

Lemma scan_hits_attempt ic r rs :
  forall pv skip m,
    In m (hits (scan ic r pv rs skip)) ->
    exists fl pv' rs', attempt ic r fl pv' rs' = Some m.
Proof.
  induction rs as [|x tl IH]; intros pv skip m Hin.
  - destruct skip; simpl in Hin; [|contradiction].
    destruct (attempt ic r false pv []) as [m0|] eqn:Ha; simpl in Hin;
      [|contradiction].
    destruct Hin as [<-|[]]. eauto.
  - destruct skip as [|n]; simpl in Hin; [|eauto].
    destruct (attempt ic r false pv (x :: tl)) as [m0|] eqn:Ha; simpl in Hin;
      [|eauto].
    destruct (length (whole m0)); simpl in Hin.
    + destruct Hin as [<-|Hin]; [eauto|].
      destruct (attempt ic r true pv (x :: tl)) as [m1|] eqn:Hb;
        simpl in Hin; [|eauto].
      destruct Hin as [<-|Hin]; eauto.
    + destruct Hin as [<-|Hin]; eauto.
Qed.

Lemma scan_no_hits ic r rs :
  forall pv, hits (scan ic r pv rs 0) = [] -> scan ic r pv rs 0 = map Gap rs.
Proof.
  induction rs as [|x tl IH]; intros pv H; simpl in *.
  - destruct (attempt ic r false pv []); [discriminate|reflexivity].
  - destruct (attempt ic r false pv (x :: tl)) as [m|].
    + destruct (length (whole m)); discriminate.
    + simpl in H. f_equal. now apply IH.
Qed.

Lemma scan_finds ic r (a b : text) :
  forall pv,
    attempt ic r false (lastp pv a) b <> None ->
    hits (scan ic r pv (a ++ b) 0) <> [].
Proof.
  induction a as [|x a IH]; intros pv H; simpl in *.
  - destruct b as [|y b]; simpl.
    + destruct (attempt ic r false pv []); [discriminate|contradiction].
    + destruct (attempt ic r false pv (y :: b)) as [m|]; [|contradiction].
      destruct (length (whole m)); simpl; discriminate.
  - destruct (attempt ic r false pv (x :: a ++ b)) as [m|].
    + destruct (length (whole m)); simpl; discriminate.
    + simpl. now apply IH.
Qed.

Lemma render_fill repl rule (ps : list piece) :
  (forall m, In m (hits ps) -> repl m = Some (rule m)) ->
  render repl ps = Some (fill rule ps).
Proof.
  induction ps as [|[c|m] ps IH]; intros H; simpl in *; auto.
  - now rewrite IH.
  - rewrite (H m) by auto. rewrite IH by auto. reflexivity.
Qed.

(** ** Patterns blind to case *)

Lemma rep_one_blind (A : Type) (s : charset) (rs : text) :
  set_blind s ->
  forall lo hi pv (k1 k2 : option ascii -> text -> option A),
    (forall p t, k1 p t = k2 p t) ->
    rep_one true s lo hi pv rs k1 = rep_one false s lo hi pv rs k2.
Proof.
  intros Hs. induction rs as [|x tl IH]; intros lo hi pv k1 k2 Hk; simpl.
  - now rewrite Hk.
  - rewrite (Hs x), (IH (pred lo) (option_map pred hi) (Some x) k1 k2 Hk), Hk.
    reflexivity.
Qed.

Lemma exec_blind (A : Type) (r : regex) :
  case_blind r ->
  forall pv rs cs (k1 k2 : option ascii -> text -> caps -> option A),
    (forall p t c, k1 p t c = k2 p t c) ->
    exec true r pv rs cs k1 = exec false r pv rs cs k2.
Proof.
  induction r as [| |c|s|r1 IH1 r2 IH2|r1 IH1 r2 IH2|n r IH|r IH|lo hi s];
    intros Hb pv rs cs k1 k2 Hk; simpl in *.
  - apply Hk.
  - now rewrite Hk.
  - destruct rs as [|x tl]; [reflexivity|]. now rewrite (Hb x), Hk.
  - destruct rs as [|x tl]; [reflexivity|]. now rewrite (Hb x), Hk.
  - destruct Hb as [Hb1 Hb2]. apply IH1; [exact Hb1|].
    intros p t c. now apply IH2.
  - destruct Hb as [Hb1 Hb2].
    now rewrite (IH1 Hb1 pv rs cs k1 k2 Hk), (IH2 Hb2 pv rs cs k1 k2 Hk).
  - apply IH; [exact Hb|]. intros p t c. apply Hk.
  - now rewrite (IH Hb pv rs cs k1 k2 Hk), Hk.
  - apply rep_one_blind; [exact Hb|]. intros p t. apply Hk.
Qed.

Lemma attempt_blind r fl pv rs :
  case_blind r -> attempt true r fl pv rs = attempt false r fl pv rs.
Proof. intros Hb. unfold attempt. now apply exec_blind. Qed.

Lemma scan_blind r rs :
  case_blind r ->
  forall pv skip, scan true r pv rs skip = scan false r pv rs skip.
Proof.
  intros Hb. induction rs as [|x tl IH]; intros pv [|n]; simpl.
  - now rewrite attempt_blind.
  - reflexivity.
  - rewrite !attempt_blind by exact Hb.
    destruct (attempt false r false pv (x :: tl)) as [m|]; [|now rewrite IH].
    destruct (length (whole m)); [|now rewrite IH].
    destruct (attempt false r true pv (x :: tl)); now rewrite IH.
  - apply IH.
Qed.

(** ** Scans and what they leave *)

Lemma min_len_sound ic r :
  forall pv w nx, matches ic r pv w nx -> min_len r <= length w.
Proof.
  induction r as [| |c|s|r1 IH1 r2 IH2|r1 IH1 r2 IH2|n r IH|r IH|lo hi s];
    intros pv w nx M; simpl in M |- *; try lia.
  - destruct M as (x & -> & _). simpl. lia.
  - destruct M as (x & -> & _). simpl. lia.
  - destruct M as (w1 & w2 & -> & M1 & M2). rewrite length_app.
    apply IH1 in M1. apply IH2 in M2. lia.
  - destruct M as [M|M]; [apply IH1 in M|apply IH2 in M]; lia.
  - eapply IH; eauto.
Qed.

Lemma only_sound f r :
  only f r ->
  forall pv w nx, matches true r pv w nx -> Forall (fun x => f x = true) w.
Proof.
  induction r as [| |c|s|r1 IH1 r2 IH2|r1 IH1 r2 IH2|n r IH|r IH|lo hi s];
    intros Ho pv w nx M; simpl in Ho, M.
  - subst. constructor.
  - destruct M as [-> _]. constructor.
  - destruct M as (x & -> & Hx). repeat constructor. auto.
  - destruct M as (x & -> & Hx). repeat constructor. auto.
  - destruct Ho as [H1 H2]. destruct M as (w1 & w2 & -> & M1 & M2).
    apply Forall_app. split; eauto.
  - destruct Ho as [H1 H2]. destruct M as [M|M]; eauto.
  - eauto.
  - destruct M as [M| ->]; [eauto|constructor].
  - destruct M as (Hall & _). eapply Forall_impl; [|exact Hall]. auto.
Qed.

Lemma scan_settled ic r :
  (forall pv w nx, matches ic r pv w nx -> w <> []) ->
  forall rs pv skip,
    source (scan ic r pv rs skip) = skipn skip rs
    /\ settled ic r (lastp pv (firstn skip rs)) (scan ic r pv rs skip).
Proof.
  intros Hnn.
  induction rs as [|x tl IH]; intros pv skip.
  - destruct skip; simpl; [|auto].
    destruct (attempt ic r false pv []) as [m|] eqn:Ha; simpl; [|auto].
    apply attempt_sound in Ha. destruct Ha as (nx & Hrs & M).
    symmetry in Hrs. apply app_eq_nil in Hrs. destruct Hrs as [Hw _].
    now apply Hnn in M.
  - destruct skip as [|n]; [|apply (IH (Some x) n)].
    cbn [scan firstn skipn lastp].
    destruct (attempt ic r false pv (x :: tl)) as [m|] eqn:Ha.
    + pose proof Ha as Hs. apply attempt_sound in Hs.
      destruct Hs as (nx & Hrs & M).
      destruct (whole m) as [|c w'] eqn:Hw; [now apply Hnn in M|].
      simpl in Hrs. injection Hrs as <- ->. cbn [length source settled].
      destruct (IH (Some x) (length w')) as [Hsrc Hset].
      rewrite skipn_app, skipn_all, Nat.sub_diag in Hsrc. simpl in Hsrc.
      rewrite firstn_app, firstn_all, Nat.sub_diag in Hset. simpl in Hset.
      rewrite app_nil_r in Hset.
      rewrite Hsrc, Hw. split; [reflexivity|]. split; [exact M|exact Hset].
    + destruct (IH (Some x) 0) as [Hsrc Hset]. simpl in Hsrc, Hset.
      cbn [source settled]. rewrite Hsrc. auto.
Qed.

Lemma free_scan ic r (rs : text) :
  forall pre,
    free_of ic r (pre ++ rs) ->
    scan ic r (lastp None pre) rs 0 = map Gap rs.
Proof.
  induction rs as [|x tl IH]; intros pre Hfree; simpl.
  - destruct (attempt ic r false (lastp None pre) []) as [m|] eqn:Ha;
      [|reflexivity].
    apply attempt_sound in Ha. destruct Ha as (nx & Hrs & M).
    exfalso. apply (Hfree pre (whole m) nx); [now rewrite <- Hrs|exact M].
  - destruct (attempt ic r false (lastp None pre) (x :: tl)) as [m|] eqn:Ha.
    + apply attempt_sound in Ha. destruct Ha as (nx & Hrs & M).
      exfalso. apply (Hfree pre (whole m) nx); [now rewrite <- Hrs|exact M].
    + f_equal. specialize (IH (pre ++ [x])).
      rewrite lastp_app in IH. simpl in IH. apply IH.
      now rewrite <- app_assoc.
Qed.

(** A reading of [Q] in the output of the [P] pass lies in a stretch the
    pass left alone, and was a reading of [Q] in its input already, at a
    place where the match attempt for [P] had failed. *)
Section Residue.
Variables P Q : regex.
Variable tok : text.
Hypothesis P_bounded : bounded P.
Hypothesis Q_bounded : bounded Q.
Hypothesis Q_plain : plain Q.
Hypothesis tok_token : is_token tok.

Lemma gaps_ahead (w : text) :
  forall ps pv post,
    settled true P pv ps ->
    fill (fun _ => tok) ps = w ++ post -> ~ In "["%char w ->
    exists post',
      source ps = w ++ post'
      /\ (hd_error post' = hd_error post
          \/ at_boundary (lastp pv w) post' = true).
Proof.
  destruct tok_token as ((body & Htok) & _ & _).
  induction w as [|c w IH]; intros ps pv post Hs Hf Hin.
  - exists (source ps). split; [reflexivity|]. simpl in Hf |- *.
    destruct ps as [|[d|m] ps]; simpl in *.
    + left. now rewrite <- Hf.
    + left. now rewrite <- Hf.
    + right. destruct Hs as [M _]. now apply P_bounded in M.
  - destruct ps as [|[d|m] ps]; simpl in Hf.
    + discriminate Hf.
    + injection Hf as -> Hf. destruct Hs as [_ Hs].
      destruct (IH ps (Some c) post Hs Hf) as (post' & Hsrc & Hb).
      { intros H. apply Hin. now right. }
      exists post'. simpl. rewrite Hsrc. auto.
    + rewrite Htok in Hf. injection Hf as <- _. exfalso. apply Hin. now left.
Qed.

Lemma carried_back (ps : list piece) :
  forall pvx pvy pre w post,
    settled true P pvx ps ->
    pvx = pvy \/ (word_opt pvy = false /\ at_boundary pvx (source ps) = true) ->
    fill (fun _ => tok) ps = pre ++ w ++ post ->
    matches true Q (lastp pvy pre) w post ->
    exists pre' post',
      source ps = pre' ++ w ++ post'
      /\ matches true Q (lastp pvx pre') w post'
      /\ attempt true P false (lastp pvx pre') (w ++ post') = None.
Proof.
  pose proof tok_token as (_ & Hlast & Hchars).
  induction ps as [|[d|m] ps IH]; intros pvx pvy pre w post Hs HR Hf M.
  - destruct (Q_plain _ _ _ M) as ((c & w' & -> & _) & _).
    simpl in Hf. destruct pre; discriminate Hf.
  - destruct Hs as [Hnone Hs]. cbn [fill] in Hf.
    destruct pre as [|e pre].
    + destruct (Q_plain _ _ _ M) as ((c & w' & -> & Hc) & Hno).
      simpl in Hf. injection Hf as <- Hf.
      destruct (@gaps_ahead w' ps (Some d) post Hs Hf) as (post' & Hsrc & Hb).
      { intros H. apply Hno. now right. }
      exists [], post'. cbn [source app lastp] in *.
      rewrite Hsrc in Hnone |- *.
      split; [reflexivity|]. split; [|exact Hnone].
      destruct (Q_bounded _ _ _ M) as [Hstart Hend]. cbn [lastp] in Hend.
      eapply matches_context; [| |exact M].
      * destruct HR as [->|[Hy Hx]]; [reflexivity|].
        rewrite Hsrc in Hx. unfold at_boundary in Hstart, Hx.
        simpl in Hstart, Hx. rewrite Hy in *.
        destruct (word_opt pvx), (is_word d); simpl in *; congruence.
      * destruct Hb as [Hb|Hb]; [now rewrite Hb|].
        unfold at_boundary in Hend, Hb.
        destruct (word_opt (lastp (Some d) w')),
          (word_opt (hd_error post)), (word_opt (hd_error post'));
          simpl in *; congruence.
    + simpl in Hf. injection Hf as <- Hf. cbn [lastp] in M.
      destruct (IH (Some d) (Some d) pre w post Hs (or_introl eq_refl) Hf M)
        as (pre' & post' & Hsrc & M' & Ha).
      exists (d :: pre'), post'. cbn [source app lastp]. rewrite Hsrc. auto.
  - destruct Hs as [Mm Hs]. cbn [fill] in Hf.
    apply app_eq_app in Hf. destruct Hf as (l & [[Htk Hrest]|[Hpre Hrest]]).
    + destruct l as [|c l].
      * rewrite app_nil_r in Htk. subst pre. simpl in Hrest.
        destruct (IH (lastp pvx (whole m)) (lastp pvy tok) [] w post Hs)
          as (pre' & post' & Hsrc & M' & Ha); auto.
        { right. split; [apply Hlast|]. now apply P_bounded in Mm. }
        exists (whole m ++ pre'), post'. cbn [source].
        rewrite Hsrc, lastp_app, <- app_assoc. auto.
      * destruct (Q_plain _ _ _ M) as ((c' & w' & -> & Hc) & _).
        simpl in Hrest. injection Hrest as -> _.
        rewrite Htk in Hchars. apply Forall_app in Hchars.
        destruct Hchars as [_ Hc']. inversion Hc'; congruence.
    + subst pre. rewrite lastp_app in M.
      destruct (IH (lastp pvx (whole m)) (lastp pvy tok) l w post Hs)
        as (pre' & post' & Hsrc & M' & Ha); auto.
      { right. split; [apply Hlast|]. now apply P_bounded in Mm. }
      exists (whole m ++ pre'), post'. cbn [source].
      rewrite Hsrc, lastp_app, <- app_assoc. auto.
Qed.
End Residue.

(** A pass leaves no reading of its own pattern. *)
Lemma own_pass_clears P tok (x : text) :
  bounded P -> plain P -> is_token tok ->
  free_of true P (fill (fun _ => tok) (scan true P None x 0)).
Proof.
  intros Hb Hp Ht pre w post Hy M.
  assert (Hnn : forall pv w nx, matches true P pv w nx -> w <> []).
  { intros pv w0 nx M0. destruct (Hp _ _ _ M0) as ((c & w' & -> & _) & _).
    discriminate. }
  destruct (@scan_settled true P Hnn x None 0) as [Hsrc Hset]. simpl in Hsrc, Hset.
  destruct (@carried_back P P tok Hb Hb Hp Ht _ None None pre w post Hset
              (or_introl eq_refl) Hy M)
    as (pre' & post' & _ & M' & Ha).
  now apply attempt_complete in M'.
Qed.

(** A pass brings in no reading of another plain pattern. *)
Lemma pass_keeps_free P Q tok (x : text) :
  bounded P -> plain P -> bounded Q -> plain Q -> is_token tok ->
  free_of true Q x ->
  free_of true Q (fill (fun _ => tok) (scan true P None x 0)).
Proof.
  intros HbP HpP HbQ HpQ Ht Hfree pre w post Hy M.
  assert (Hnn : forall pv w nx, matches true P pv w nx -> w <> []).
  { intros pv w0 nx M0. destruct (HpP _ _ _ M0) as ((c & w' & -> & _) & _).
    discriminate. }
  destruct (@scan_settled true P Hnn x None 0) as [Hsrc Hset]. simpl in Hsrc, Hset.
  destruct (@carried_back P Q tok HbP HbQ HpQ Ht _ None None pre w post Hset
              (or_introl eq_refl) Hy M)
    as (pre' & post' & Hx & M' & _).
  rewrite Hsrc in Hx. exact (Hfree _ _ _ Hx M').
Qed.

(** * Properties of the registry *)

Ltac each_char c := destruct c as [[] [] [] [] [] [] [] []]; vm_compute.

Lemma lower_at (x : ascii) : chr_match true x "@" = true -> x = "@"%char.
Proof. each_char x; intros H; solve [reflexivity | discriminate H]. Qed.

Lemma blind_digits09 : set_blind digits09.
Proof. intros c. each_char c; reflexivity. Qed.

Lemma blind_digit : set_blind [IDigit].
Proof. intros c. each_char c; reflexivity. Qed.

Lemma blind_dash_dot : set_blind dash_dot.
Proof. intros c. each_char c; reflexivity. Qed.

Lemma blind_dash_space : set_blind dash_space.
Proof. intros c. each_char c; reflexivity. Qed.

Lemma blind_plus_sign : set_blind [IChr "+"%char].
Proof. intros c. each_char c; reflexivity. Qed.

Lemma blind_open_paren : set_blind [IChr "("%char].
Proof. intros c. each_char c; reflexivity. Qed.

Lemma blind_close_paren : set_blind [IChr ")"%char].
Proof. intros c. each_char c; reflexivity. Qed.

Lemma blind_one : chr_blind "1".
Proof. intros c. each_char c; reflexivity. Qed.

Lemma blind_dash : chr_blind "-".
Proof. intros c. each_char c; reflexivity. Qed.

Create HintDb blind.
Create HintDb residue.

#[local] Hint Resolve blind_digits09 blind_digit blind_dash_dot
  blind_dash_space blind_plus_sign blind_open_paren blind_close_paren
  blind_one blind_dash : blind.

Lemma phone_blind : case_blind phone_re.
Proof. cbn [phone_re cat case_blind maybe times]. repeat split; auto with blind. Qed.

Lemma ssn_blind : case_blind ssn_re.
Proof. cbn [ssn_re cat case_blind maybe times]. repeat split; auto with blind. Qed.

Lemma credit_card_blind : case_blind credit_card_re.
Proof.
  cbn [credit_card_re cat case_blind maybe times].
  repeat split; auto with blind.
Qed.

(** ** The shape of an email match *)

Lemma set_excludes (s : charset) (c : ascii) (w : text) :
  set_match true s c = false ->
  Forall (fun x => set_match true s x = true) w -> ~ In c w.
Proof.
  intros Hc Hall Hin. rewrite Forall_forall in Hall.
  specialize (Hall _ Hin). congruence.
Qed.

Lemma email_shape pv w nx :
  matches true email_re pv w nx ->
  exists local domain,
    w = local ++ "@"%char :: domain
    /\ ~ In "@"%char local /\ ~ In "@"%char domain.
Proof.
  unfold email_re, plus. cbn [cat matches].
  intros (w0 & w1 & -> & [-> _] & M).
  destruct M as (local & w2 & -> & (Hl & _) & M).
  destruct M as (wa & w3 & -> & (x & -> & Hx) & M).
  destruct M as (dom & w4 & -> & (Hd & _) & M).
  destruct M as (wd & w5 & -> & (y & -> & Hy) & M).
  destruct M as (tld & w6 & -> & (Ht & _) & M).
  destruct M as (w7 & w8 & -> & [-> _] & ->).
  apply lower_at in Hx. subst x.
  exists local, (dom ++ [y] ++ tld). simpl. rewrite !app_nil_r.
  split; [reflexivity|]. split.
  - eapply set_excludes; [|exact Hl]. reflexivity.
  - intros Hin. apply in_app_or in Hin. destruct Hin as [Hin|Hin].
    + revert Hin. eapply set_excludes; [|exact Hd]. reflexivity.
    + simpl in Hin. destruct Hin as [->|Hin]; [vm_compute in Hy; discriminate Hy|].
      revert Hin. eapply set_excludes; [|exact Ht]. reflexivity.
Qed.

Lemma split_no_sep (w : text) :
  ~ In "@"%char w -> split_on "@" w = [w].
Proof.
  induction w as [|c w IH]; intros H; simpl; [reflexivity|].
  destruct (Ascii.eqb_spec c "@") as [->|_]; [exfalso; apply H; now left|].
  rewrite IH; [reflexivity|]. intros Hin. apply H. now right.
Qed.

Lemma split_one_sep (local domain : text) :
  ~ In "@"%char local -> ~ In "@"%char domain ->
  split_on "@" (local ++ "@"%char :: domain) = [local; domain].
Proof.
  intros Hl Hd. induction local as [|c l IH]; simpl.
  - now rewrite split_no_sep.
  - destruct (Ascii.eqb_spec c "@") as [->|_]; [exfalso; apply Hl; now left|].
    rewrite IH; [reflexivity|]. intros Hin. apply Hl. now right.
Qed.

Lemma after_at_one_sep (local domain : text) :
  ~ In "@"%char local -> after_at (local ++ "@"%char :: domain) = domain.
Proof.
  intros Hl. induction local as [|c l IH]; simpl; [reflexivity|].
  destruct (Ascii.eqb_spec c "@") as [->|_]; [exfalso; apply Hl; now left|].
  apply IH. intros Hin. apply Hl. now right.
Qed.

Lemma count_one_sep (local domain : text) :
  ~ In "@"%char local -> ~ In "@"%char domain ->
  count_occ ascii_dec (local ++ "@"%char :: domain) "@"%char = 1.
Proof.
  intros Hl Hd. rewrite count_occ_app. simpl.
  destruct (ascii_dec "@" "@") as [_|n]; [|now elim n].
  apply (count_occ_not_In ascii_dec) in Hl, Hd. rewrite Hl, Hd. reflexivity.
Qed.

Lemma email_hit_shape (rs : text) pv skip m :
  In m (hits (scan true email_re pv rs skip)) ->
  exists local domain,
    whole m = local ++ "@"%char :: domain
    /\ ~ In "@"%char local /\ ~ In "@"%char domain.
Proof.
  intros Hin. apply scan_hits_attempt in Hin.
  destruct Hin as (fl & pv' & rs' & Ha).
  apply attempt_sound in Ha. destruct Ha as (nx & _ & M).
  eapply email_shape; exact M.
Qed.

(** * Properties of the validator *)

Lemma chars_str (t : text) : chars (str t) = t.
Proof. apply list_ascii_of_string_of_list_ascii. Qed.

Lemma str_chars (s : string) : str (chars s) = s.
Proof. apply string_of_list_ascii_of_string. Qed.

Lemma chars_app (a b : string) : chars (a ++ b)%string = chars a ++ chars b.
Proof. induction a as [|c a IH]; simpl; [reflexivity|]. now rewrite <- IH. Qed.

Lemma fill_gaps rule (rs : text) : fill rule (map Gap rs) = rs.
Proof. induction rs as [|x tl IH]; simpl; [reflexivity|]. now rewrite IH. Qed.

(** ** The passes of [sanitize] *)

Lemma sub_token (ic : bool) pattern (tok s : string) :
  ic = true \/ case_blind pattern ->
  sub pattern tok s ic = Some (replace_all pattern (token tok) s).
Proof.
  intros H. unfold sub, re_sub, re_sub_with, replace_all, token.
  assert (Hs : scan ic pattern None (chars s) 0
               = scan IGNORECASE pattern None (chars s) 0).
  { destruct H as [->|Hb]; [reflexivity|].
    destruct ic; [reflexivity|]. symmetry. now apply scan_blind. }
  rewrite Hs.
  rewrite (render_fill (fun _ => Some (chars tok)) (fun _ => chars tok));
    [reflexivity|]. reflexivity.
Qed.

Lemma email_pass (s : string) :
  sub_with email_re email_repl s IGNORECASE
  = Some (replace_all email_re keep_domain s).
Proof.
  unfold sub_with, re_sub_with, replace_all.
  rewrite (render_fill (fun m => option_map chars (email_repl m))
             (fun m => chars (keep_domain (whole m)))); [reflexivity|].
  intros m Hin. apply email_hit_shape in Hin.
  destruct Hin as (local & domain & Hw & Hl & Hd).
  unfold email_repl, keep_domain.
  rewrite Hw, split_one_sep, after_at_one_sep by assumption. reflexivity.
Qed.

Lemma step_email s :
  sanitize_step s ("email"%string, email_re)
  = Some (replace_all email_re keep_domain s).
Proof. apply email_pass. Qed.

Lemma step_phone s :
  sanitize_step s ("phone"%string, phone_re)
  = Some (replace_all phone_re (token "[PHONE_REDACTED]") s).
Proof. apply sub_token. right. exact phone_blind. Qed.

Lemma step_ssn s :
  sanitize_step s ("ssn"%string, ssn_re)
  = Some (replace_all ssn_re (token "[SSN_REDACTED]") s).
Proof. apply sub_token. right. exact ssn_blind. Qed.

Lemma step_credit_card s :
  sanitize_step s ("credit_card"%string, credit_card_re)
  = Some (replace_all credit_card_re (token "[CARD_REDACTED]") s).
Proof. apply sub_token. right. exact credit_card_blind. Qed.

Lemma step_ip_address s :
  sanitize_step s ("ip_address"%string, ip_address_re)
  = Some (replace_all ip_address_re (token "[IP_ADDRESS_REDACTED]") s).
Proof. apply (sub_token (ic := IGNORECASE)). now left. Qed.

Lemma step_address s :
  sanitize_step s ("address"%string, address_re)
  = Some (replace_all address_re (token "[ADDRESS_REDACTED]") s).
Proof. apply (sub_token (ic := IGNORECASE)). now left. Qed.

Lemma sanitize_runs_sequential (content : string) :
  sanitize content = Some (sanitize_sequential content).
Proof.
  unfold sanitize, PATTERNS, sanitize_sequential. cbn [fold_left].
  now rewrite step_email, step_phone, step_ssn, step_credit_card,
    step_ip_address, step_address.
Qed.

(** ** What the digit passes leave behind *)

Lemma ends_on_boundary (l : list regex) :
  forall pv w nx,
    matches true (cat (l ++ [Bound])) pv w nx ->
    at_boundary (lastp pv w) nx = true.
Proof.
  induction l as [|r l IH]; intros pv w nx M; cbn [app cat matches] in M.
  - destruct M as (w1 & w2 & -> & [-> Hb] & ->). exact Hb.
  - destruct M as (w1 & w2 & -> & _ & M2). rewrite lastp_app. now apply IH.
Qed.

Lemma cat_bounded (l : list regex) : bounded (cat (Bound :: l ++ [Bound])).
Proof.
  intros pv w nx M. split.
  - cbn [cat matches] in M. destruct M as (w1 & w2 & -> & [-> Hb] & _).
    exact Hb.
  - now apply (ends_on_boundary (Bound :: l)).
Qed.

Ltac bounded_by_ends :=
  match goal with
  | |- bounded ?r =>
      let r' := eval cbv delta [r] in r in
      match r' with
      | cat (Bound :: ?l) => exact (cat_bounded (removelast l))
      end
  end.

Lemma phone_bounded : bounded phone_re.
Proof. bounded_by_ends. Qed.

Lemma ssn_bounded : bounded ssn_re.
Proof. bounded_by_ends. Qed.

Lemma credit_card_bounded : bounded credit_card_re.
Proof. bounded_by_ends. Qed.

Lemma ip_address_bounded : bounded ip_address_re.
Proof. bounded_by_ends. Qed.

Lemma address_bounded : bounded address_re.
Proof. bounded_by_ends. Qed.

Lemma plain_of_only r :
  only (fun c => negb (token_char c)) r -> 1 <= min_len r -> plain r.
Proof.
  intros Ho Hm pv w nx M.
  pose proof (@only_sound _ _ Ho _ _ _ M) as Hall.
  pose proof (@min_len_sound _ _ _ _ _ M) as Hlen.
  split.
  - destruct w as [|c w']; [simpl in Hlen; lia|].
    exists c, w'. split; [reflexivity|].
    inversion Hall as [|? ? Hc _]. now apply negb_true_iff in Hc.
  - intros Hin. rewrite Forall_forall in Hall. apply Hall in Hin.
    discriminate Hin.
Qed.

Ltac only_by_cases :=
  repeat split;
  let x := fresh "x" in
  let H := fresh "H" in
  intros x; each_char x; intros H; solve [reflexivity | discriminate H].

Lemma phone_plain : plain phone_re.
Proof.
  apply plain_of_only; [|vm_compute; lia].
  cbn [phone_re cat only maybe times]. only_by_cases.
Qed.

Lemma ssn_plain : plain ssn_re.
Proof.
  apply plain_of_only; [|vm_compute; lia].
  cbn [ssn_re cat only maybe times]. only_by_cases.
Qed.

Lemma credit_card_plain : plain credit_card_re.
Proof.
  apply plain_of_only; [|vm_compute; lia].
  cbn [credit_card_re cat only maybe times]. only_by_cases.
Qed.

Lemma ip_address_plain : plain ip_address_re.
Proof.
  apply plain_of_only; [|vm_compute; lia].
  cbn [ip_address_re cat only maybe times]. only_by_cases.
Qed.

Lemma digit_not_token (c : ascii) :
  set_match true [IDigit] c = true -> token_char c = false.
Proof. each_char c; intros H; solve [reflexivity | discriminate H]. Qed.

Lemma address_no_bracket :
  only (fun c => negb (Ascii.eqb c "[")) address_re.
Proof.
  cbn [address_re cat only plus alts lit map]. only_by_cases.
Qed.

Lemma address_plain : plain address_re.
Proof.
  intros pv w nx M. split.
  - unfold address_re, plus in M. cbn [cat matches] in M.
    destruct M as (w0 & w1 & -> & [-> _] & M).
    destruct M as (ds & w2 & -> & (Hd & Hlen & _) & _).
    destruct ds as [|c ds]; [simpl in Hlen; lia|].
    exists c, (ds ++ w2). split; [reflexivity|].
    inversion Hd as [|? ? Hc _]. now apply digit_not_token.
  - pose proof (@only_sound _ _ address_no_bracket _ _ _ M) as Hall.
    intros Hin. rewrite Forall_forall in Hall. apply Hall in Hin.
    discriminate Hin.
Qed.

Lemma token_is_token (name : string) :
  forallb token_char (chars name) = true ->
  is_token (chars ("[" ++ name ++ "]")%string).
Proof.
  intros Hn. rewrite !chars_app. cbn [chars list_ascii_of_string app].
  rewrite forallb_forall in Hn. split; [eauto|]. split.
  - intros pv. change ("["%char :: chars name ++ ["]"%char])
      with (("["%char :: chars name) ++ ["]"%char]).
    rewrite lastp_app. reflexivity.
  - constructor; [reflexivity|]. apply Forall_app. split.
    + apply Forall_forall. exact Hn.
    + repeat constructor.
Qed.

Lemma free_identity Q rule (t : string) :
  free_of true Q (chars t) -> replace_all Q rule t = t.
Proof.
  intros Hf. unfold replace_all, IGNORECASE.
  pose proof (@free_scan true Q (chars t) [] Hf) as E. cbn [lastp] in E.
  rewrite E, fill_gaps. apply str_chars.
Qed.

Lemma own_clears P (t s : string) :
  bounded P -> plain P -> is_token (chars t) ->
  free_of true P (chars (replace_all P (token t) s)).
Proof.
  intros Hb Hp Ht. unfold replace_all, token. rewrite chars_str.
  now apply own_pass_clears.
Qed.

Lemma keeps_free P Q (t s : string) :
  bounded P -> plain P -> bounded Q -> plain Q -> is_token (chars t) ->
  free_of true Q (chars s) ->
  free_of true Q (chars (replace_all P (token t) s)).
Proof.
  intros HbP HpP HbQ HpQ Ht Hf. unfold replace_all, token.
  rewrite chars_str. now apply pass_keeps_free.
Qed.

Lemma tok_phone : is_token (chars "[PHONE_REDACTED]").
Proof. now apply (token_is_token "PHONE_REDACTED"). Qed.

Lemma tok_ssn : is_token (chars "[SSN_REDACTED]").
Proof. now apply (token_is_token "SSN_REDACTED"). Qed.

Lemma tok_card : is_token (chars "[CARD_REDACTED]").
Proof. now apply (token_is_token "CARD_REDACTED"). Qed.

Lemma tok_ip : is_token (chars "[IP_ADDRESS_REDACTED]").
Proof. now apply (token_is_token "IP_ADDRESS_REDACTED"). Qed.

Lemma tok_address : is_token (chars "[ADDRESS_REDACTED]").
Proof. now apply (token_is_token "ADDRESS_REDACTED"). Qed.

#[local] Hint Resolve phone_bounded ssn_bounded credit_card_bounded
  ip_address_bounded address_bounded phone_plain ssn_plain credit_card_plain
  ip_address_plain address_plain tok_phone tok_ssn tok_card tok_ip
  tok_address : residue.

(** After [sanitize], only the email pattern can still find a match. *)
Lemma sanitized_free (x : string) :
  let y := sanitize_sequential x in
  free_of true phone_re (chars y) /\ free_of true ssn_re (chars y)
  /\ free_of true credit_card_re (chars y)
  /\ free_of true ip_address_re (chars y)
  /\ free_of true address_re (chars y).
Proof.
  unfold sanitize_sequential. cbv zeta.
  repeat split;
    repeat first [ apply own_clears; auto with residue
                 | apply keeps_free; auto with residue ].
Qed.

(** ** Detection *)

Lemma detect_entry_length content pii_type pattern :
  length (detect_entry content (pii_type, pattern))
  = length (re_finditer IGNORECASE pattern (chars content)).
Proof.
  unfold detect_entry, findall, re_findall.
  destruct (ngroups pattern) as [|[|n]]; now rewrite !length_map.
Qed.

Lemma detect_entry_types content pii_type pattern :
  map fst (detect_entry content (pii_type, pattern))
  = repeat pii_type (length (re_finditer IGNORECASE pattern (chars content))).
Proof.
  unfold detect_entry, findall, re_findall.
  destruct (ngroups pattern) as [|[|n]];
    induction (re_finditer IGNORECASE pattern (chars content)) as [|m ms IH];
    simpl in *; try reflexivity; now rewrite IH.
Qed.

Lemma matched_somewhere_detects content :
  matched_somewhere content = (0 <? length (_detect_patterns content)).
Proof.
  unfold matched_somewhere, _detect_patterns.
  induction PATTERNS as [|[n p] es IH]; [reflexivity|].
  cbn [existsb flat_map snd]. rewrite length_app, detect_entry_length, IH.
  destruct (length (re_finditer IGNORECASE p (chars content))); simpl;
    reflexivity.
Qed.

Lemma validate_enabled v content :
  enabled v = true ->
  validate v content =
  let detected_pii := _detect_patterns content in
  let confidence :=
    match detected_pii with [] => f_zero | _ :: _ => f_one end in
  {| has_pii := 0 <? length detected_pii;
     pii_types := map fst detected_pii;
     confidence := confidence;
     details := map snd detected_pii;
     safe_to_send :=
       negb (0 <? length detected_pii) || SFltb confidence (threshold v) |}.
Proof. intros H. unfold validate. now rewrite H. Qed.

(** An email delimited by non-word characters is found by the scan. *)
Lemma email_found (pre s post : string) :
  is_email s = true ->
  ends_on_word pre = false -> starts_on_word post = false ->
  re_finditer IGNORECASE email_re (chars (pre ++ s ++ post)%string) <> [].
Proof.
  unfold is_email, ends_on_word, starts_on_word. intros He Hp Hn.
  destruct (re_fullmatch IGNORECASE email_re (chars s)) as [m|] eqn:Hf;
    [|discriminate].
  apply fullmatch_sound in Hf.
  rewrite !chars_app. unfold re_finditer. apply scan_finds.
  apply attempt_complete.
  eapply matches_context; [| |exact Hf]; simpl; congruence.
Qed.

(** * The properties of the specification *)

(** C1 (the code departs from its test [test_sanitizes_phone]): on
    ["Call me at (415) 555-1212"] no pass of [sanitize] finds a match, since
    the separators of the phone pattern are [-] and [.] only; the text
    comes back unchanged and holds no ["[PHONE_REDACTED]"]. *)
Theorem sanitize_spaced_phone_unchanged :
  sanitize "Call me at (415) 555-1212" = Some "Call me at (415) 555-1212"%string
  /\ re_finditer NOFLAGS phone_re (chars "Call me at (415) 555-1212") = []
  /\ contains "Call me at (415) 555-1212" "[PHONE_REDACTED]" = false.
Proof. repeat split; vm_compute; reflexivity. Qed.

(** C2, as stated, fails: with the threshold exactly [1.0] a text with an
    email address is not safe to send. *)
Lemma threshold_one_is_not_safe :
  ~ (forall v content,
       enabled v = true -> SFleb f_one (threshold v) = true ->
       safe_to_send (validate v content) = true).
Proof.
  intros H.
  specialize (H {| enabled := true; threshold := f_one |} "a@b.com"%string
                eq_refl eq_refl).
  vm_compute in H. discriminate H.
Qed.

(** C2, amended: if the engine is enabled and the threshold is strictly
    above [1.0], [validate] returns [safe_to_send = true] for every text,
    detected PII or not. *)
Theorem threshold_above_one_always_safe v content :
  enabled v = true -> SFltb f_one (threshold v) = true ->
  safe_to_send (validate v content) = true.
Proof.
  intros He Ht. rewrite validate_enabled by exact He. cbn [safe_to_send].
  destruct (_detect_patterns content); simpl; [reflexivity|exact Ht].
Qed.

Lemma threshold_above_one_always_safe_witness :
  let v := {| enabled := true; threshold := f_two |} in
  enabled v = true /\ SFltb f_one (threshold v) = true
  /\ has_pii (validate v "a@b.com") = true
  /\ safe_to_send (validate v "a@b.com") = true.
Proof.
  intros v. split; [reflexivity|]. split; [reflexivity|].
  split; [vm_compute; reflexivity|].
  apply (@threshold_above_one_always_safe v "a@b.com"%string); reflexivity.
Defined.

(** C3: on an enabled engine, [confidence] is [1.0] if some detector found
    a match and [0.0] otherwise, and
    [safe_to_send = not has_pii or confidence < threshold]. *)
Theorem validate_confidence_and_safety v content :
  enabled v = true ->
  confidence (validate v content)
  = (if matched_somewhere content then f_one else f_zero)
  /\ safe_to_send (validate v content)
     = negb (has_pii (validate v content))
       || SFltb (confidence (validate v content)) (threshold v).
Proof.
  intros He. rewrite validate_enabled by exact He.
  rewrite matched_somewhere_detects.
  cbn [confidence safe_to_send has_pii]. split; [|reflexivity].
  destruct (_detect_patterns content); reflexivity.
Qed.

Lemma validate_confidence_and_safety_witness :
  let v := {| enabled := true; threshold := f_one |} in
  enabled v = true
  /\ confidence (validate v "a@b.com") = f_one
  /\ safe_to_send (validate v "a@b.com") = false.
Proof.
  intros v. split; [reflexivity|].
  destruct (@validate_confidence_and_safety v "a@b.com"%string eq_refl)
    as [Hc Hs].
  split; [rewrite Hc; vm_compute; reflexivity|].
  rewrite Hs. vm_compute. reflexivity.
Defined.

(** C4, as stated, fails: ["a@b.com1"] contains the email ["a@b.com"], yet
    the word character after it leaves the closing [\b] without a
    boundary, and nothing is detected. *)
Lemma email_before_word_char_undetected :
  ~ (forall v pre s post,
       enabled v = true -> is_email s = true ->
       has_pii (validate v (pre ++ s ++ post)%string) = true
       /\ In "email"%string (pii_types (validate v (pre ++ s ++ post)%string))).
Proof.
  intros H.
  destruct (H {| enabled := true; threshold := f_zero |}
              ""%string "a@b.com"%string "1"%string eq_refl eq_refl)
    as [Hp _].
  vm_compute in Hp. discriminate Hp.
Qed.

(** C4, amended: if a text contains an email address (a part that on its
    own is one match of the email pattern) that is neither preceded nor
    followed by a word character, then [validate] on an enabled engine
    returns [has_pii = true] with ["email"] among [pii_types]. *)
Theorem delimited_email_is_detected v (pre s post : string) :
  enabled v = true -> is_email s = true ->
  ends_on_word pre = false -> starts_on_word post = false ->
  has_pii (validate v (pre ++ s ++ post)%string) = true
  /\ In "email"%string (pii_types (validate v (pre ++ s ++ post)%string)).
Proof.
  intros He Hs Hp Hn. rewrite validate_enabled by exact He.
  cbn [has_pii pii_types].
  pose proof (email_found pre s post Hs Hp Hn) as Hf.
  unfold _detect_patterns, PATTERNS. cbn [flat_map].
  rewrite length_app, map_app, detect_entry_length, detect_entry_types.
  destruct (re_finditer IGNORECASE email_re
              (chars (pre ++ s ++ post)%string)) as [|m ms];
    [contradiction|].
  split; [reflexivity|]. simpl. now left.
Qed.

Lemma delimited_email_is_detected_witness :
  let v := {| enabled := true; threshold := f_zero |} in
  (enabled v = true /\ is_email "test@example.com" = true
   /\ ends_on_word "Contact me at " = false /\ starts_on_word "" = false)
  /\ has_pii (validate v "Contact me at test@example.com") = true
  /\ In "email"%string
       (pii_types (validate v "Contact me at test@example.com")).
Proof.
  intros v. split; [repeat split; vm_compute; reflexivity|].
  apply (@delimited_email_is_detected v "Contact me at "%string
           "test@example.com"%string ""%string); vm_compute; reflexivity.
Defined.

(** C5: the email pass of [sanitize] replaces each email match by
    ["[EMAIL_REDACTED]@"] followed by the domain of the matched text, the
    part after its ['@']; and [sanitize("contact me at a@b.com")] contains
    ["@b.com"] and does not contain ["a@b.com"]. *)
Theorem email_redaction_keeps_domain :
  (forall content,
     sanitize_step content ("email"%string, email_re)
     = Some (replace_all email_re keep_domain content)
     /\ Forall
          (fun m =>
             exists local domain,
               whole m = local ++ "@"%char :: domain
               /\ keep_domain (whole m)
                  = ("[EMAIL_REDACTED]@" ++ str domain)%string)
          (re_finditer IGNORECASE email_re (chars content)))
  /\ sanitize "contact me at a@b.com"
     = Some "contact me at [EMAIL_REDACTED]@b.com"%string
  /\ contains "contact me at [EMAIL_REDACTED]@b.com" "@b.com" = true
  /\ contains "contact me at [EMAIL_REDACTED]@b.com" "a@b.com" = false.
Proof.
  split; [|repeat split; vm_compute; reflexivity].
  intros content. split; [apply step_email|].
  apply Forall_forall. intros m Hin. apply email_hit_shape in Hin.
  destruct Hin as (local & domain & Hw & Hl & Hd).
  exists local, domain. split; [exact Hw|].
  unfold keep_domain. now rewrite Hw, after_at_one_sep.
Qed.

(** C6: on a disabled engine [validate] returns, whatever the text,
    exactly [has_pii=false, confidence=1.0, safe_to_send=true,
    pii_types=[], details=[]]. *)
Theorem disabled_engine_bypasses v content :
  enabled v = false ->
  validate v content
  = {| has_pii := false; pii_types := []; confidence := f_one;
       details := []; safe_to_send := true |}.
Proof. intros He. unfold validate. now rewrite He. Qed.

Lemma disabled_engine_bypasses_witness :
  let v := {| enabled := false; threshold := f_zero |} in
  enabled v = false
  /\ validate v "Contact me at test@example.com" = bypass_result.
Proof.
  intros v. split; [reflexivity|].
  apply (@disabled_engine_bypasses v "Contact me at test@example.com"%string).
  reflexivity.
Defined.

(** C7: for every text and either configuration, the result of [validate]
    has [has_pii == (len(details) > 0)] and
    [len(details) == len(pii_types)]. *)
Theorem validate_result_invariant v content :
  has_pii (validate v content) = (0 <? length (details (validate v content)))
  /\ length (details (validate v content))
     = length (pii_types (validate v content)).
Proof.
  destruct (enabled v) eqn:He.
  - rewrite validate_enabled by exact He. cbn [has_pii details pii_types].
    rewrite !length_map. split; reflexivity.
  - unfold validate. rewrite He. split; reflexivity.
Qed.

(** C8, as stated, fails: the email pass keeps the domain, and in
    ["a@b.com@c.org"] the kept ["b.com"] starts a second address once the
    first local part is gone, so a second [sanitize] redacts again. *)
Lemma sanitize_twice_differs :
  ~ (forall x y z,
       sanitize x = Some y -> sanitize y = Some z -> z = y).
Proof.
  intros H.
  specialize (H "a@b.com@c.org"%string "[EMAIL_REDACTED]@b.com@c.org"%string
                "[EMAIL_REDACTED]@[EMAIL_REDACTED]@c.org"%string).
  assert (E : "[EMAIL_REDACTED]@[EMAIL_REDACTED]@c.org"%string
              = "[EMAIL_REDACTED]@b.com@c.org"%string)
    by (apply H; vm_compute; reflexivity).
  discriminate E.
Qed.

(** C8, amended: when the email pattern finds no match in the sanitized
    text any more, sanitizing it again gives the same text; the other five
    passes never leave or bring in a match of their patterns. *)
Theorem sanitize_idempotent_without_email_residue x y :
  sanitize x = Some y ->
  re_finditer IGNORECASE email_re (chars y) = [] ->
  sanitize y = Some y.
Proof.
  intros Hx He. rewrite sanitize_runs_sequential in Hx. injection Hx as <-.
  destruct (sanitized_free x) as (Hphone & Hssn & Hcard & Hip & Haddr).
  set (y := sanitize_sequential x) in *.
  rewrite sanitize_runs_sequential. f_equal.
  unfold sanitize_sequential. cbv zeta.
  assert (Hemail : replace_all email_re keep_domain y = y).
  { unfold replace_all. unfold re_finditer in He.
    rewrite (@scan_no_hits IGNORECASE email_re (chars y) None He), fill_gaps.
    apply str_chars. }
  rewrite Hemail.
  rewrite (@free_identity phone_re _ y Hphone).
  rewrite (@free_identity ssn_re _ y Hssn).
  rewrite (@free_identity credit_card_re _ y Hcard).
  rewrite (@free_identity ip_address_re _ y Hip).
  exact (@free_identity address_re _ y Haddr).
Qed.

Lemma sanitize_idempotent_without_email_residue_witness :
  let x := "contact me at a@b.com"%string in
  let y := "contact me at [EMAIL_REDACTED]@b.com"%string in
  (sanitize x = Some y /\ re_finditer IGNORECASE email_re (chars y) = [])
  /\ sanitize y = Some y.
Proof.
  intros x y.
  assert (Hx : sanitize x = Some y) by (vm_compute; reflexivity).
  assert (Hy : re_finditer IGNORECASE email_re (chars y) = [])
    by (vm_compute; reflexivity).
  split; [split; assumption|].
  exact (@sanitize_idempotent_without_email_residue x y Hx Hy).
Defined.

(** C9: [sanitize] is the composition of the six find-and-replace passes
    in the order email, phone, ssn, credit_card, ip_address, address, each
    over the output of the one before: a phone number in the domain the
    email pass emits is redacted by the phone pass, and one in the local
    part is gone before the phone pass runs. *)
Theorem sanitize_is_sequential_composition :
  (forall content, sanitize content = Some (sanitize_sequential content))
  /\ sanitize "a@5551234567.com"
     = Some "[EMAIL_REDACTED]@[PHONE_REDACTED].com"%string
  /\ (re_finditer IGNORECASE phone_re (chars "5551234567@b.com") <> []
      /\ sanitize "5551234567@b.com" = Some "[EMAIL_REDACTED]@b.com"%string).
Proof.
  split; [exact sanitize_runs_sequential|].
  repeat split; vm_compute; solve [reflexivity | discriminate].
Qed.

(** C10: every text matched by the email pattern holds exactly one ['@'],
    so splitting it on ['@'] gives the local part and the whole domain,
    index 1 is in range, and [sanitize] raises for no input. *)
Theorem email_split_index_in_range content :
  Forall
    (fun m =>
       count_occ ascii_dec (whole m) "@"%char = 1
       /\ exists local domain,
            whole m = local ++ "@"%char :: domain
            /\ split_on "@" (whole m) = [local; domain]
            /\ email_repl m = Some ("[EMAIL_REDACTED]@" ++ str domain)%string)
    (re_finditer IGNORECASE email_re (chars content))
  /\ exists sanitized, sanitize content = Some sanitized.
Proof.
  split; [|eexists; apply sanitize_runs_sequential].
  apply Forall_forall. intros m Hin. apply email_hit_shape in Hin.
  destruct Hin as (local & domain & Hw & Hl & Hd).
  split; [rewrite Hw; now apply count_one_sep|].
  exists local, domain. unfold email_repl.
  rewrite Hw, split_one_sep by assumption. repeat split; reflexivity.
Qed.


(** * Further properties of the validator *)

Lemma exec_binds (A : Type) (ic : bool) (r : regex) :
  forall pv rs cs (k : option ascii -> text -> caps -> option A) a,
    exec ic r pv rs cs k = Some a ->
    exists w nx cs',
      rs = w ++ nx /\ binds ic r pv w nx cs cs'
      /\ k (lastp pv w) nx cs' = Some a.
Proof.
  induction r as [| |c|s|r1 IH1 r2 IH2|r1 IH1 r2 IH2|n r IH|r IH|lo hi s];
    intros pv rs cs k a H; simpl in H.
  - exists [], rs, cs. simpl. repeat split; eauto.
  - destruct (at_boundary pv rs) eqn:Hb; [|discriminate].
    exists [], rs, cs. simpl. repeat split; eauto.
  - destruct rs as [|x tl]; [discriminate|].
    destruct (chr_match ic x c) eqn:Hx; [|discriminate].
    exists [x], tl, cs. simpl. repeat split; eauto.
  - destruct rs as [|x tl]; [discriminate|].
    destruct (set_match ic s x) eqn:Hx; [|discriminate].
    exists [x], tl, cs. simpl. repeat split; eauto.
  - destruct (IH1 _ _ _ _ _ H) as (w1 & nx1 & cs1 & -> & M1 & H1).
    destruct (IH2 _ _ _ _ _ H1) as (w2 & nx & cs2 & -> & M2 & H2).
    exists (w1 ++ w2), nx, cs2. rewrite lastp_app, <- app_assoc.
    repeat split; auto. simpl. exists w1, w2, cs1. repeat split; auto.
  - destruct (exec ic r1 pv rs cs k) as [a'|] eqn:H1.
    + injection H as ->.
      destruct (IH1 _ _ _ _ _ H1) as (w & nx & cs' & -> & M1 & Hk).
      exists w, nx, cs'. simpl. repeat split; eauto.
    + destruct (IH2 _ _ _ _ _ H) as (w & nx & cs' & -> & M2 & Hk).
      exists w, nx, cs'. simpl. repeat split; eauto.
  - destruct (IH _ _ _ _ _ H) as (w & nx & cs' & -> & M1 & Hk).
    cbv beta in Hk. rewrite eaten_app in Hk.
    exists w, nx, ((n, w) :: cs'). simpl. repeat split; eauto.
  - destruct (exec ic r pv rs cs k) as [a'|] eqn:H1.
    + injection H as ->.
      destruct (IH _ _ _ _ _ H1) as (w & nx & cs' & -> & M1 & Hk).
      exists w, nx, cs'. simpl. repeat split; eauto.
    + exists [], rs, cs. simpl. repeat split; eauto.
  - apply rep_one_sound in H.
    destruct H as (w & nx & -> & Hall & Hlo & Hhi & Hk).
    exists w, nx, cs. simpl. repeat split; eauto.
Qed.

Lemma attempt_binds ic r fl pv rs m :
  attempt ic r fl pv rs = Some m ->
  exists nx, rs = whole m ++ nx /\ binds ic r pv (whole m) nx [] (groups m).
Proof.
  unfold attempt. intros H.
  apply exec_binds in H. destruct H as (w & nx & cs' & -> & M & Hk).
  cbv beta in Hk.
  destruct (fl && (length nx =? length (w ++ nx))); [discriminate|].
  injection Hk as Hm. subst m. simpl. rewrite eaten_app. eauto.
Qed.

Lemma detected_nothing_iff content :
  _detect_patterns content = [] <->
  forall pii_type pattern,
    In (pii_type, pattern) PATTERNS ->
    re_finditer IGNORECASE pattern (chars content) = [].
Proof.
  unfold _detect_patterns. split.
  - intros H pii_type pattern Hin.
    apply length_zero_iff_nil.
    rewrite <- detect_entry_length with (pii_type := pii_type).
    apply length_zero_iff_nil.
    induction PATTERNS as [|e es IH]; [contradiction|].
    cbn [flat_map] in H. apply app_eq_nil in H. destruct H as [H1 H2].
    destruct Hin as [->|Hin]; [exact H1|]. now apply IH.
  - intros H. induction PATTERNS as [|[n p] es IH]; [reflexivity|].
    cbn [flat_map].
    rewrite IH by (intros n' p' Hin; apply (H n' p'); now right).
    rewrite app_nil_r. apply length_zero_iff_nil.
    rewrite detect_entry_length. rewrite (H n p) by now left. reflexivity.
Qed.

Lemma pair_lists (A B : Type) (P : A -> B -> Prop) (l : list (A * B)) :
  Forall (fun e => P (fst e) (snd e)) l -> Forall2 P (map fst l) (map snd l).
Proof. induction 1; simpl; constructor; auto. Qed.

(** X1: [_mask] shows at most the first two and the last two characters:
    a value of up to four characters becomes ["***"], a longer one keeps
    two characters at each end around ["***"] and nothing of its middle. *)
Theorem mask_shows_ends_only (value : text) :
  (length value <= 4 -> _mask value = chars "***")
  /\ (4 < length value ->
      exists first middle last,
        value = first ++ middle ++ last
        /\ length first = 2 /\ length last = 2 /\ middle <> []
        /\ _mask value = first ++ chars "***" ++ last)
  /\ length (_mask value) <= 7.
Proof.
  unfold _mask. destruct (Nat.leb_spec (length value) 4) as [Hle|Hgt].
  - split; [reflexivity|]. split; [lia|]. simpl. lia.
  - split; [lia|].
    assert (Hshape :
      exists first middle last,
        value = first ++ middle ++ last
        /\ length first = 2 /\ length last = 2 /\ middle <> []
        /\ firstn 2 value ++ chars "***" ++ skipn (length value - 2) value
           = first ++ chars "***" ++ last).
    { exists (firstn 2 value),
        (firstn (length value - 4) (skipn 2 value)),
        (skipn (length value - 2) value).
      split.
      - rewrite <- (firstn_skipn 2 value) at 1. f_equal.
        rewrite <- (firstn_skipn (length value - 4) (skipn 2 value)) at 1.
        f_equal. rewrite skipn_skipn. f_equal. lia.
      - split; [rewrite length_firstn; lia|].
        split; [rewrite length_skipn; lia|]. split; [|reflexivity].
        intros E. apply (f_equal (@length ascii)) in E.
        rewrite length_firstn, length_skipn in E. simpl in E. lia. }
    split; [intros _; exact Hshape|].
    destruct Hshape as (a & m & b & _ & Ha & Hb & _ & ->).
    rewrite !length_app, Ha, Hb. simpl. lia.
Qed.

Lemma mask_shows_ends_only_witness :
  length (chars "1234") <= 4 /\ _mask (chars "1234") = chars "***".
Proof.
  assert (H : length (chars "1234") <= 4) by (simpl; lia).
  split; [exact H|].
  exact (proj1 (mask_shows_ends_only (chars "1234")) H).
Defined.

Lemma types_by_registry v content :
  enabled v = true ->
  pii_types (validate v content)
  = flat_map
      (fun entry : string * regex =>
         repeat (fst entry)
           (length (re_finditer IGNORECASE (snd entry) (chars content))))
      PATTERNS.
Proof.
  intros He. rewrite validate_enabled by exact He. cbn [pii_types].
  unfold _detect_patterns.
  induction PATTERNS as [|[n p] es IH]; [reflexivity|].
  cbn [flat_map fst snd]. now rewrite map_app, detect_entry_types, IH.
Qed.

(** X2: on an enabled engine [pii_types] lists the categories in registry
    order, each as many times as its pattern matches the text. *)
Theorem pii_types_follow_registry v content :
  enabled v = true ->
  pii_types (validate v content)
  = flat_map
      (fun entry : string * regex =>
         repeat (fst entry)
           (length (re_finditer IGNORECASE (snd entry) (chars content))))
      PATTERNS.
Proof.
  intros He. rewrite validate_enabled by exact He. cbn [pii_types].
  unfold _detect_patterns.
  induction PATTERNS as [|[n p] es IH]; [reflexivity|].
  cbn [flat_map fst snd]. now rewrite map_app, detect_entry_types, IH.
Qed.

Lemma pii_types_follow_registry_witness :
  let v := {| enabled := true; threshold := f_zero |} in
  enabled v = true
  /\ pii_types (validate v "ip 10.0.0.1, a@b.com, c@d.org")
     = ["email"; "email"; "ip_address"]%string.
Proof.
  intros v. split; [reflexivity|].
  rewrite (@pii_types_follow_registry v _ eq_refl). vm_compute. reflexivity.
Defined.

Lemma safe_formula v content :
  enabled v = true ->
  safe_to_send (validate v content)
  = negb (has_pii (validate v content)) || SFltb f_one (threshold v).
Proof.
  intros He. rewrite validate_enabled by exact He.
  cbn [safe_to_send has_pii].
  destruct (_detect_patterns content); reflexivity.
Qed.

(** X3: on an enabled engine the threshold acts only through
    [1.0 < threshold]: [safe_to_send = not has_pii or 1.0 < threshold], so
    a text without PII is safe for every threshold, a NaN or a negative
    one included. *)
Theorem threshold_acts_only_above_one v content :
  enabled v = true ->
  safe_to_send (validate v content)
  = negb (has_pii (validate v content)) || SFltb f_one (threshold v).
Proof.
  intros He. rewrite validate_enabled by exact He.
  cbn [safe_to_send has_pii].
  destruct (_detect_patterns content); reflexivity.
Qed.

Lemma threshold_acts_only_above_one_witness :
  let v := {| enabled := true; threshold := S754_nan |} in
  enabled v = true
  /\ safe_to_send (validate v "nothing to hide") = true
  /\ safe_to_send (validate v "a@b.com") = false.
Proof.
  intros v. split; [reflexivity|].
  rewrite !(@threshold_acts_only_above_one v _ eq_refl).
  split; vm_compute; reflexivity.
Defined.

(** ** What the details show *)

Lemma detected_from_registry content t d :
  In (t, d) (_detect_patterns content) ->
  exists pattern,
    In (t, pattern) PATTERNS /\ In (t, d) (detect_entry content (t, pattern)).
Proof.
  unfold _detect_patterns. intros H. apply in_flat_map in H.
  destruct H as ([n p] & Hin & Hd).
  assert (n = t) as ->.
  { assert (Ht : In t (map fst (detect_entry content (n, p))))
      by (apply (in_map fst) in Hd; exact Hd).
    rewrite detect_entry_types in Ht. now apply repeat_spec in Ht. }
  eauto.
Qed.

Lemma detect_entry_masked content t p :
  ngroups p = 0 ->
  detect_entry content (t, p)
  = map (fun m => (t, (found_prefix t ++ str (_mask (whole m)))%string))
      (re_finditer IGNORECASE p (chars content)).
Proof.
  intros H. unfold detect_entry, findall, re_findall. rewrite H.
  now rewrite map_map.
Qed.

Lemma detect_entry_phone content :
  detect_entry content ("phone"%string, phone_re)
  = map (fun m =>
           ("phone"%string,
            (found_prefix "phone"
             ++ str (join (chars "-")
                       [group_or_empty m 1; group_or_empty m 2;
                        group_or_empty m 3]))%string))
      (re_finditer IGNORECASE phone_re (chars content)).
Proof.
  unfold detect_entry, findall, re_findall.
  change (ngroups phone_re) with 3. cbn [seq map]. now rewrite map_map.
Qed.

Lemma digits09_are_digits (x : ascii) :
  set_match true digits09 x = true -> is_digit x = true.
Proof. each_char x; intros H; solve [reflexivity | discriminate H]. Qed.

Lemma digits09_run (n : nat) (w : text) :
  Forall (fun x => set_match true digits09 x = true) w ->
  n <= length w -> fits (Some n) (length w) -> digit_run n w.
Proof.
  intros Hall Hlo Hhi. simpl in Hhi. split; [lia|].
  eapply Forall_impl; [|exact Hall]. apply digits09_are_digits.
Qed.

Lemma phone_groups pv w nx cs :
  binds true phone_re pv w nx [] cs ->
  exists a b c,
    digit_run 3 a /\ digit_run 3 b /\ digit_run 4 c
    /\ cs = [(3, c); (2, b); (1, a)].
Proof.
  unfold phone_re, maybe, times. cbn [cat binds].
  intros H.
  repeat match goal with
         | H : exists _, _ |- _ => destruct H
         | H : _ /\ _ |- _ => destruct H
         | H : _ \/ _ |- _ => destruct H
         end; subst;
    (do 3 eexists; split; [|split; [|split]]; cycle 3;
     [reflexivity | apply digits09_run; eassumption ..]).
Qed.

(** X4: on an enabled engine the detail of every match outside the phone
    category is ["Found <category>: "] followed by the masked text of a
    match of that category's pattern: at most seven characters, of which
    at most four are from the match. *)
Theorem details_outside_phone_are_masked v content :
  enabled v = true ->
  Forall2
    (fun t d =>
       t <> "phone"%string ->
       exists pattern m,
         In (t, pattern) PATTERNS
         /\ In m (re_finditer IGNORECASE pattern (chars content))
         /\ d = (found_prefix t ++ str (_mask (whole m)))%string)
    (pii_types (validate v content)) (details (validate v content)).
Proof.
  intros He. rewrite validate_enabled by exact He.
  cbn [pii_types details]. apply pair_lists. apply Forall_forall.
  intros [t d] Hin Ht. cbn [fst snd] in *.
  apply detected_from_registry in Hin. destruct Hin as (p & Hp & Hd).
  assert (Hg : ngroups p = 0).
  { unfold PATTERNS in Hp. simpl in Hp.
    repeat destruct Hp as [Hp|Hp]; try contradiction;
      injection Hp as <- <-; try reflexivity.
    now elim Ht. }
  rewrite (@detect_entry_masked content t p Hg) in Hd.
  apply in_map_iff in Hd. destruct Hd as (m & Hm & Hin).
  injection Hm as <-. exists p, m. repeat split; auto.
Qed.

Lemma details_outside_phone_are_masked_witness :
  let v := {| enabled := true; threshold := f_zero |} in
  enabled v = true
  /\ details (validate v "ssn 123-45-6789") = ["Found ssn: 12***89"%string].
Proof.
  intros v. split; [reflexivity|].
  pose proof (@details_outside_phone_are_masked v "ssn 123-45-6789"%string
                eq_refl) as H.
  vm_compute. reflexivity.
Defined.

(** X5: on an enabled engine the detail of every phone match is
    ["Found phone: "] followed by the three digits of the area code, the
    three of the prefix and the four of the line number, joined by ["-"]:
    a phone number is written out in full, [_mask] is not applied. *)
Theorem phone_details_spell_the_number v content :
  enabled v = true ->
  Forall2
    (fun t d =>
       t = "phone"%string ->
       exists area prefix line,
         digit_run 3 area /\ digit_run 3 prefix /\ digit_run 4 line
         /\ d = ("Found phone: "
                 ++ str (area ++ "-"%char :: prefix ++ "-"%char :: line)%list)%string)
    (pii_types (validate v content)) (details (validate v content)).
Proof.
  intros He. rewrite validate_enabled by exact He.
  cbn [pii_types details]. apply pair_lists. apply Forall_forall.
  intros [t d] Hin Ht. cbn [fst snd] in *. subst t.
  apply detected_from_registry in Hin. destruct Hin as (p & Hp & Hd).
  assert (p = phone_re) as ->.
  { unfold PATTERNS in Hp. simpl in Hp.
    repeat destruct Hp as [Hp|Hp]; try contradiction;
      try discriminate Hp. now injection Hp as <-. }
  rewrite detect_entry_phone in Hd.
  apply in_map_iff in Hd. destruct Hd as (m & Hm & Hin).
  injection Hm as <-. unfold re_finditer in Hin.
  apply scan_hits_attempt in Hin. destruct Hin as (fl & pv & rs & Ha).
  apply attempt_binds in Ha. destruct Ha as (nx & _ & Hb).
  apply phone_groups in Hb.
  destruct Hb as (a & b & c & Ha & Hb & Hc & Hcs).
  exists a, b, c. split; [exact Ha|]. split; [exact Hb|]. split; [exact Hc|].
  unfold group_or_empty. rewrite Hcs. reflexivity.
Qed.

Lemma phone_details_spell_the_number_witness :
  let v := {| enabled := true; threshold := f_zero |} in
  enabled v = true
  /\ details (validate v "call 415-555-1212")
     = ["Found phone: 415-555-1212"%string].
Proof.
  intros v. split; [reflexivity|].
  pose proof (@phone_details_spell_the_number v "call 415-555-1212"%string
                eq_refl) as H.
  vm_compute. reflexivity.
Defined.

(** ** [validate] and [sanitize] together *)

Lemma hits_gaps (t : text) : hits (map Gap t) = [].
Proof. induction t; simpl; auto. Qed.

Lemma free_finds_nothing ic r (t : text) :
  free_of ic r t -> re_finditer ic r t = [].
Proof.
  intros Hf. unfold re_finditer.
  pose proof (@free_scan ic r t [] Hf) as E. cbn [lastp] in E.
  rewrite E. apply hits_gaps.
Qed.

Lemma only_email_after_sanitize v x y :
  enabled v = true -> sanitize x = Some y ->
  Forall (fun t => t = "email"%string) (pii_types (validate v y))
  /\ has_pii (validate v y)
     = (0 <? length (re_finditer IGNORECASE email_re (chars y))).
Proof.
  intros He Hx. rewrite sanitize_runs_sequential in Hx. injection Hx as <-.
  destruct (sanitized_free x) as (Hphone & Hssn & Hcard & Hip & Haddr).
  set (y := sanitize_sequential x) in *.
  apply free_finds_nothing in Hphone, Hssn, Hcard, Hip, Haddr.
  split.
  - rewrite types_by_registry by exact He.
    unfold PATTERNS. cbn [flat_map fst snd].
    unfold IGNORECASE. rewrite Hphone, Hssn, Hcard, Hip, Haddr.
    cbn [length repeat app]. rewrite app_nil_r.
    apply Forall_forall. intros t Ht.
    now apply repeat_spec in Ht.
  - rewrite validate_enabled by exact He. cbn [has_pii].
    rewrite <- matched_somewhere_detects. unfold matched_somewhere, PATTERNS.
    cbn [existsb snd]. unfold IGNORECASE.
    rewrite Hphone, Hssn, Hcard, Hip, Haddr.
    cbn [length Nat.ltb Nat.leb orb]. now rewrite orb_false_r.
Qed.

(** X6: after [sanitize], [validate] on an enabled engine reports no
    category but ["email"], and reports PII at all exactly when the email
    pattern still matches the sanitized text. *)
Theorem sanitized_text_reports_only_email v x y :
  enabled v = true -> sanitize x = Some y ->
  Forall (fun t => t = "email"%string) (pii_types (validate v y))
  /\ has_pii (validate v y)
     = (0 <? length (re_finditer IGNORECASE email_re (chars y))).
Proof.
  intros He Hx. rewrite sanitize_runs_sequential in Hx. injection Hx as <-.
  destruct (sanitized_free x) as (Hphone & Hssn & Hcard & Hip & Haddr).
  set (y := sanitize_sequential x) in *.
  apply free_finds_nothing in Hphone, Hssn, Hcard, Hip, Haddr.
  split.
  - rewrite types_by_registry by exact He.
    unfold PATTERNS. cbn [flat_map fst snd].
    unfold IGNORECASE. rewrite Hphone, Hssn, Hcard, Hip, Haddr.
    cbn [length repeat app]. rewrite app_nil_r.
    apply Forall_forall. intros t Ht.
    now apply repeat_spec in Ht.
  - rewrite validate_enabled by exact He. cbn [has_pii].
    rewrite <- matched_somewhere_detects. unfold matched_somewhere, PATTERNS.
    cbn [existsb snd]. unfold IGNORECASE.
    rewrite Hphone, Hssn, Hcard, Hip, Haddr.
    cbn [length Nat.ltb Nat.leb orb]. now rewrite orb_false_r.
Qed.

Lemma sanitized_text_reports_only_email_witness :
  let v := {| enabled := true; threshold := f_zero |} in
  let x := "a@b.com@c.org, 415-555-1212, 10.0.0.1"%string in
  let y := "[EMAIL_REDACTED]@b.com@c.org, [PHONE_REDACTED], [IP_ADDRESS_REDACTED]"%string in
  (enabled v = true /\ sanitize x = Some y)
  /\ pii_types (validate v y) = ["email"%string].
Proof.
  intros v x y.
  assert (Hx : sanitize x = Some y) by (vm_compute; reflexivity).
  split; [split; [reflexivity|exact Hx]|].
  pose proof (proj1 (@sanitized_text_reports_only_email v x y eq_refl Hx)).
  vm_compute. reflexivity.
Defined.

(** Every redaction brings one opening bracket into the text, and no match
    holds one: the brackets count the redactions. *)
Lemma brackets_app (a b : text) : brackets (a ++ b) = brackets a + brackets b.
Proof. apply count_occ_app. Qed.

Lemma brackets_none (w : text) : ~ In "["%char w -> brackets w = 0.
Proof. intros H. now apply count_occ_not_In. Qed.

Lemma brackets_fill rule (ps : list piece) :
  (forall m, In m (hits ps) ->
             brackets (whole m) = 0 /\ brackets (rule m) = 1) ->
  brackets (fill rule ps) = brackets (source ps) + length (hits ps).
Proof.
  induction ps as [|[c|m] ps IH]; intros H; cbn [fill source hits length].
  - reflexivity.
  - change (c :: fill rule ps) with ([c] ++ fill rule ps).
    change (c :: source ps) with ([c] ++ source ps).
    rewrite !brackets_app, IH by exact H. lia.
  - destruct (H m (or_introl eq_refl)) as [Hw Hr].
    rewrite !brackets_app, Hw, Hr, IH; [lia|].
    intros m' Hm'. apply H. now right.
Qed.

Lemma after_at_within (c : ascii) (w : text) :
  In c (after_at w) -> In c w.
Proof.
  induction w as [|x w IH]; simpl; [auto|].
  destruct (Ascii.eqb x "@"); auto.
Qed.

Lemma email_no_bracket : only (fun c => negb (Ascii.eqb c "[")) email_re.
Proof. cbn [email_re cat only plus]. only_by_cases. Qed.

Lemma pass_brackets P rule (x : string) :
  (forall pv w nx, matches true P pv w nx -> w <> [] /\ ~ In "["%char w) ->
  (forall w, ~ In "["%char w -> brackets (chars (rule w)) = 1) ->
  brackets (chars (replace_all P rule x))
  = brackets (chars x) + length (re_finditer IGNORECASE P (chars x)).
Proof.
  intros HP Hrule. unfold replace_all, re_finditer, IGNORECASE.
  rewrite chars_str.
  assert (Hnn : forall pv w nx, matches true P pv w nx -> w <> [])
    by (intros pv w nx M; now apply HP in M).
  destruct (@scan_settled true P Hnn (chars x) None 0) as [Hsrc _].
  cbn [skipn] in Hsrc.
  rewrite brackets_fill; [now rewrite Hsrc|].
  intros m Hin. apply scan_hits_attempt in Hin.
  destruct Hin as (fl & pv & rs & Ha). apply attempt_sound in Ha.
  destruct Ha as (nx & _ & M). apply HP in M. destruct M as [_ Hno].
  split; [now apply brackets_none|now apply Hrule].
Qed.

Lemma pass_nothing_to_do P rule (x : string) :
  re_finditer IGNORECASE P (chars x) = [] -> replace_all P rule x = x.
Proof.
  intros H. unfold replace_all. unfold re_finditer in H.
  rewrite (@scan_no_hits IGNORECASE P (chars x) None H), fill_gaps.
  apply str_chars.
Qed.

Lemma plain_no_bracket P :
  plain P ->
  forall pv w nx, matches true P pv w nx -> w <> [] /\ ~ In "["%char w.
Proof.
  intros Hp pv w nx M. destruct (Hp _ _ _ M) as ((c & w' & -> & _) & Hno).
  split; [discriminate|exact Hno].
Qed.

Lemma email_no_bracket_match :
  forall pv w nx, matches true email_re pv w nx -> w <> [] /\ ~ In "["%char w.
Proof.
  intros pv w nx M. split.
  - pose proof (@min_len_sound _ _ _ _ _ M) as Hlen.
    change (min_len email_re) with 6 in Hlen.
    intros ->. simpl in Hlen. lia.
  - pose proof (@only_sound _ _ email_no_bracket _ _ _ M) as Hall.
    intros Hin. rewrite Forall_forall in Hall. apply Hall in Hin.
    discriminate Hin.
Qed.

Lemma keep_domain_one_bracket (w : text) :
  ~ In "["%char w -> brackets (chars (keep_domain w)) = 1.
Proof.
  intros H. unfold keep_domain. rewrite chars_app, chars_str, brackets_app.
  rewrite (brackets_none (after_at w)); [reflexivity|].
  intros Hin. apply H. now apply after_at_within.
Qed.

Lemma undetected_is_unchanged (x : string) :
  _detect_patterns x = [] -> sanitize x = Some x.
Proof.
  intros Hd. rewrite sanitize_runs_sequential.
  pose proof (proj1 (detected_nothing_iff x) Hd) as Hn.
  f_equal. unfold sanitize_sequential. cbv zeta.
  rewrite (@pass_nothing_to_do email_re keep_domain x)
    by (apply (Hn "email"%string); cbn [PATTERNS In]; tauto).
  rewrite (@pass_nothing_to_do phone_re _ x)
    by (apply (Hn "phone"%string); cbn [PATTERNS In]; tauto).
  rewrite (@pass_nothing_to_do ssn_re _ x)
    by (apply (Hn "ssn"%string); cbn [PATTERNS In]; tauto).
  rewrite (@pass_nothing_to_do credit_card_re _ x)
    by (apply (Hn "credit_card"%string); cbn [PATTERNS In]; tauto).
  rewrite (@pass_nothing_to_do ip_address_re _ x)
    by (apply (Hn "ip_address"%string); cbn [PATTERNS In]; tauto).
  apply pass_nothing_to_do.
  apply (Hn "address"%string); cbn [PATTERNS In]; tauto.
Qed.

(** X7: on an enabled engine [sanitize] returns a text unchanged exactly
    when [validate] finds no PII in it. *)
Theorem sanitize_unchanged_iff_clean v x :
  enabled v = true ->
  sanitize x = Some x <-> has_pii (validate v x) = false.
Proof.
  intros He. rewrite validate_enabled by exact He. cbn [has_pii].
  rewrite sanitize_runs_sequential. split.
  - intros Hx. injection Hx as Hx.
    unfold sanitize_sequential in Hx. cbv zeta in Hx.
    remember (replace_all email_re keep_domain x) as y0 eqn:D0.
    remember (replace_all phone_re (token "[PHONE_REDACTED]") y0)
      as y1 eqn:D1.
    remember (replace_all ssn_re (token "[SSN_REDACTED]") y1) as y2 eqn:D2.
    remember (replace_all credit_card_re (token "[CARD_REDACTED]") y2)
      as y3 eqn:D3.
    remember (replace_all ip_address_re (token "[IP_ADDRESS_REDACTED]") y3)
      as y4 eqn:D4.
    assert (B0 := @pass_brackets email_re keep_domain x
                    email_no_bracket_match keep_domain_one_bracket).
    assert (B1 := @pass_brackets phone_re (token "[PHONE_REDACTED]") y0
                    (plain_no_bracket phone_plain) (fun _ _ => eq_refl)).
    assert (B2 := @pass_brackets ssn_re (token "[SSN_REDACTED]") y1
                    (plain_no_bracket ssn_plain) (fun _ _ => eq_refl)).
    assert (B3 := @pass_brackets credit_card_re (token "[CARD_REDACTED]") y2
                    (plain_no_bracket credit_card_plain) (fun _ _ => eq_refl)).
    assert (B4 := @pass_brackets ip_address_re (token "[IP_ADDRESS_REDACTED]")
                    y3 (plain_no_bracket ip_address_plain)
                    (fun _ _ => eq_refl)).
    assert (B5 := @pass_brackets address_re (token "[ADDRESS_REDACTED]") y4
                    (plain_no_bracket address_plain) (fun _ _ => eq_refl)).
    rewrite <- D0 in B0. rewrite <- D1 in B1. rewrite <- D2 in B2.
    rewrite <- D3 in B3. rewrite <- D4 in B4. rewrite Hx in B5.
    assert (N0 : re_finditer IGNORECASE email_re (chars x) = [])
      by (apply length_zero_iff_nil; lia).
    assert (E0 : y0 = x) by (rewrite D0; now apply pass_nothing_to_do).
    rewrite E0 in B1, D1.
    assert (N1 : re_finditer IGNORECASE phone_re (chars x) = [])
      by (apply length_zero_iff_nil; lia).
    assert (E1 : y1 = x) by (rewrite D1; now apply pass_nothing_to_do).
    rewrite E1 in B2, D2.
    assert (N2 : re_finditer IGNORECASE ssn_re (chars x) = [])
      by (apply length_zero_iff_nil; lia).
    assert (E2 : y2 = x) by (rewrite D2; now apply pass_nothing_to_do).
    rewrite E2 in B3, D3.
    assert (N3 : re_finditer IGNORECASE credit_card_re (chars x) = [])
      by (apply length_zero_iff_nil; lia).
    assert (E3 : y3 = x) by (rewrite D3; now apply pass_nothing_to_do).
    rewrite E3 in B4, D4.
    assert (N4 : re_finditer IGNORECASE ip_address_re (chars x) = [])
      by (apply length_zero_iff_nil; lia).
    assert (E4 : y4 = x) by (rewrite D4; now apply pass_nothing_to_do).
    rewrite E4 in B5.
    assert (N5 : re_finditer IGNORECASE address_re (chars x) = [])
      by (apply length_zero_iff_nil; lia).
    assert (Hd : _detect_patterns x = []).
    { apply detected_nothing_iff. intros t p Hin. unfold PATTERNS in Hin.
      cbn [In] in Hin.
      repeat destruct Hin as [Hin|Hin]; try contradiction;
        injection Hin as <- <-; assumption. }
    now rewrite Hd.
  - intros Hclean. f_equal.
    assert (Hd : _detect_patterns x = []).
    { destruct (_detect_patterns x); [reflexivity|discriminate Hclean]. }
    pose proof (undetected_is_unchanged x Hd) as Hs.
    rewrite sanitize_runs_sequential in Hs. now injection Hs.
Qed.

Lemma sanitize_unchanged_iff_clean_witness :
  let v := {| enabled := true; threshold := f_zero |} in
  enabled v = true /\ sanitize "nothing to hide" = Some "nothing to hide"%string.
Proof.
  intros v. split; [reflexivity|].
  apply (proj2 (@sanitize_unchanged_iff_clean v "nothing to hide"%string
                  eq_refl)).
  vm_compute. reflexivity.
Defined.

(** * Properties of the drafter *)


Lemma prompt_inputs_shape (E : Type) fmt v request plan
    (context : option (Context.dict E)) inp :
  @prompt_inputs E fmt v request plan context = Some inp ->
  exists r k c,
    Prompt.request inp = (if enabled v then sanitize_sequential r else r)
    /\ Prompt.key_points inp = (if enabled v then sanitize_sequential k else k)
    /\ Prompt.context_section inp
       = (if enabled v then sanitize_sequential c else c)
    /\ r = request.
Proof.
  unfold prompt_inputs. intros H.
  destruct (join_any ", " (py_get (Plan.recipients plan) [Some "recipient"%string]));
    [|discriminate].
  rewrite !sanitize_runs_sequential in H.
  destruct (enabled v); injection H as <-; cbn; eauto 8.
Qed.


(** X8: with the engine enabled, the request, the key points and the
    context section that [draft] hands to the language-model chain have
    been through [sanitize]: [validate] reports no category but ["email"]
    in any of them. *)
Theorem chain_inputs_are_scrubbed (E : Type) fmt v request plan
    (context : option (Context.dict E)) inp :
  enabled v = true ->
  @prompt_inputs E fmt v request plan context = Some inp ->
  sanitize request = Some (Prompt.request inp)
  /\ Forall (fun t => t = "email"%string)
       (pii_types (validate v (Prompt.request inp)))
  /\ Forall (fun t => t = "email"%string)
       (pii_types (validate v (Prompt.key_points inp)))
  /\ Forall (fun t => t = "email"%string)
       (pii_types (validate v (Prompt.context_section inp))).
Proof.
  intros He H. apply prompt_inputs_shape in H.
  destruct H as (r & k & c & Hr & Hk & Hc & ->). rewrite He in *.
  rewrite Hr, Hk, Hc. split; [apply sanitize_runs_sequential|].
  repeat split;
    eapply (proj1 (@only_email_after_sanitize v _ _ He
                     (sanitize_runs_sequential _))).
Qed.

Lemma chain_inputs_are_scrubbed_witness :
  let v := {| enabled := true; threshold := f_zero |} in
  let plan :=
    {| Plan.intent := None; Plan.tone := None; Plan.recipients := None;
       Plan.key_points := None; Plan.subject := None |} in
  exists inp,
    (enabled v = true
     /\ @prompt_inputs unit "" v "call 415-555-1212" plan None = Some inp)
    /\ Prompt.request inp = "call [PHONE_REDACTED]"%string.
Proof.
  intros v plan. eexists.
  assert (H : @prompt_inputs unit "" v "call 415-555-1212" plan None
              = Some _) by (vm_compute; reflexivity).
  split; [split; [reflexivity|exact H]|].
  pose proof (proj1 (@chain_inputs_are_scrubbed unit _ v _ plan None _
                       eq_refl H)) as Hs.
  assert (Hc : sanitize "call 415-555-1212"
               = Some "call [PHONE_REDACTED]"%string)
    by (vm_compute; reflexivity).
  congruence.
Defined.

Lemma draft_after_answer (E : Type) invoke fmt v request plan
    (context : option (Context.dict E)) inp answered :
  enabled v = true -> SFltb f_one (threshold v) = false ->
  @prompt_inputs E fmt v request plan context = Some inp ->
  invoke inp = Some answered ->
  exists d,
    @draft E invoke fmt v request plan context = Some d
    /\ Draft.has_pii d = has_pii (validate v (Draft.body answered))
    /\ Draft.is_safe d = negb (Draft.has_pii d)
    /\ (if Draft.has_pii d
        then sanitize (Draft.body answered) = Some (Draft.body d)
        else Draft.body d = Draft.body answered)
    /\ Draft.subject d = Draft.subject answered
    /\ Forall (fun t => t = "email"%string)
         (pii_types (validate v (Draft.body d))).
Proof.
  intros He Ht Hinp Hinv. unfold draft. rewrite Hinp, Hinv.
  unfold screen_draft. cbn [Draft.is_safe Draft.body Draft.has_pii
                             Draft.subject Draft.tone Draft.signature].
  rewrite safe_formula by exact He. rewrite Ht, orb_false_r, negb_involutive.
  destruct (has_pii (validate v (Draft.body answered))) eqn:Hp.
  - rewrite sanitize_runs_sequential. eexists. split; [reflexivity|].
    cbn [Draft.is_safe Draft.body Draft.has_pii Draft.subject].
    repeat split.
    eapply (proj1 (@only_email_after_sanitize v _ _ He
                     (sanitize_runs_sequential _))).
  - eexists. split; [reflexivity|].
    cbn [Draft.is_safe Draft.body Draft.has_pii Draft.subject].
    repeat split.
    rewrite validate_enabled in Hp |- * by exact He.
    cbn [has_pii pii_types] in *.
    destruct (_detect_patterns (Draft.body answered));
      [constructor|discriminate Hp].
Qed.








(** * Properties of the retriever and the workflow *)

(** X13: [_summarize_emails] reads of its input only the first five
    emails, and of each only the sender, the subject and the first hundred
    characters of the snippet; for no email it answers
    ["No relevant emails found."]. *)
Theorem summary_reads_five_clipped_emails (emails : list Mail.dict) :
  _summarize_emails [] = "No relevant emails found."%string
  /\ _summarize_emails emails
     = _summarize_emails (map clipped (firstn 5 emails)).
Proof.
  split; [reflexivity|].
  destruct emails as [|e emails]; [reflexivity|].
  change (firstn 5 (e :: emails)) with (e :: firstn 4 emails).
  unfold _summarize_emails. cbn [map].
  change (firstn 5 (e :: emails)) with (e :: firstn 4 emails).
  change (clipped e :: map clipped (firstn 4 emails))
    with (map clipped (e :: firstn 4 emails)).
  set (l := e :: firstn 4 emails).
  rewrite (firstn_all2 (n := 5) (map clipped l)).
  - rewrite map_map. f_equal. apply map_ext. intros a.
    unfold summarize_one, clipped.
    cbn [Mail.from Mail.subject Mail.snippet py_get].
    rewrite chars_str, firstn_firstn. reflexivity.
  - rewrite length_map. unfold l. cbn [length].
    rewrite length_firstn. lia.
Qed.

(** X14: [process_request] hands at most one mail to [send_email], and
    only with [auto_send] set and a draft flagged [is_safe]: the mail goes
    to the first recipient of the plan with the subject and the body of the
    draft.  The ['sent'] entry of the result is [auto_send and is_safe],
    which it also is when the plan has no recipient and nothing is sent. *)
Theorem only_safe_drafts_are_sent (M : Type) search limit planner invoke fmt v
    request auto_send (outcome : Outcome.dict M) mails :
  @process_request M search limit planner invoke fmt v request auto_send
  = Some (outcome, mails) ->
  length mails <= 1
  /\ Outcome.sent outcome = auto_send && Draft.is_safe (Outcome.draft outcome)
  /\ (Planned.recipients (Outcome.plan outcome) = [] -> mails = [])
  /\ forall mail,
       In mail mails ->
       auto_send = true
       /\ Draft.is_safe (Outcome.draft outcome) = true
       /\ hd_error (Planned.recipients (Outcome.plan outcome))
          = Some (Sent.to mail)
       /\ Sent.subject mail = Draft.subject (Outcome.draft outcome)
       /\ Sent.body mail = Draft.body (Outcome.draft outcome).
Proof.
  unfold process_request. intros H.
  destruct (draft invoke fmt v request (plan_dict (planner request)) _)
    as [drafted|]; [|discriminate].
  injection H as <- <-. cbn [Outcome.sent Outcome.draft Outcome.plan].
  destruct (auto_send && Draft.is_safe drafted) eqn:Hgo.
  - apply andb_prop in Hgo. destruct Hgo as [-> Hsafe].
    destruct (Planned.recipients (planner request)) as [|r rs]; simpl.
    + repeat split; auto; contradiction.
    + repeat split; auto; try discriminate;
        destruct H as [<-|[]]; reflexivity.
  - simpl. repeat split; auto; contradiction.
Qed.

Lemma only_safe_drafts_are_sent_witness :
  let v := {| enabled := true; threshold := f_zero |} in
  let planned :=
    {| Planned.intent := "compose"; Planned.requires_context := false;
       Planned.context_query := ""; Planned.recipients := [];
       Planned.subject := "hi"; Planned.key_points := [];
       Planned.tone := "casual"; Planned.requires_calendar := false;
       Planned.meeting_details := tt |}%string in
  exists outcome,
    @process_request unit (fun _ _ => []) 10 (fun _ => planned)
      (fun _ => None) "" v "hello" true
    = Some (outcome, [])
    /\ Outcome.sent outcome = true.
Proof.
  intros v planned. eexists.
  assert (H : @process_request unit (fun _ _ => []) 10 (fun _ => planned)
                (fun _ => None) "" v "hello" true = Some (_, []))
    by (vm_compute; reflexivity).
  split; [exact H|].
  rewrite (proj1 (proj2 (@only_safe_drafts_are_sent unit _ _ _ _ _ _ _ _ _ _
                           H))).
  reflexivity.
Defined.

(** X15: when the engine is enabled, the threshold is not above [1.0] and
    the chain always answers, [validate] finds no PII in the body of any
    mail [process_request] hands to [send_email]. *)
Theorem auto_sent_body_has_no_pii (M : Type) search limit planner invoke fmt
    v request auto_send (outcome : Outcome.dict M) mails :
  enabled v = true -> SFltb f_one (threshold v) = false ->
  (forall inp, invoke inp <> None) ->
  @process_request M search limit planner invoke fmt v request auto_send
  = Some (outcome, mails) ->
  Forall (fun mail => has_pii (validate v (Sent.body mail)) = false) mails.
Proof.
  intros He Ht Hinv. unfold process_request. intros H.
  match type of H with
  | match draft _ _ _ _ ?p ?c with _ => _ end = _ =>
      set (plan := p) in *; set (ctx := c) in *
  end.
  destruct (prompt_inputs fmt v request plan ctx) as [inp|] eqn:Hinp.
  - destruct (invoke inp) as [answered|] eqn:Ha; [|now elim (Hinv inp)].
    destruct (@draft_after_answer _ invoke fmt v request plan ctx inp
                answered He Ht Hinp Ha)
      as (d & Hd & Hp & Hs & Hb & _).
    rewrite Hd in H. injection H as _ <-.
    destruct (auto_send && Draft.is_safe d) eqn:Hgo; [|constructor].
    apply andb_prop in Hgo. destruct Hgo as [_ Hsafe].
    destruct (Planned.recipients (planner request)); constructor;
      [|constructor].
    cbn [Sent.body]. rewrite Hs in Hsafe. apply negb_true_iff in Hsafe.
    rewrite Hsafe in Hb. rewrite Hb. congruence.
  - unfold draft in H. rewrite Hinp in H. discriminate H.
Qed.

Lemma auto_sent_body_has_no_pii_witness :
  let v := {| enabled := true; threshold := f_zero |} in
  let planned :=
    {| Planned.intent := "compose"; Planned.requires_context := false;
       Planned.context_query := ""; Planned.recipients := ["a@b.com"];
       Planned.subject := "hi"; Planned.key_points := [];
       Planned.tone := "casual"; Planned.requires_calendar := false;
       Planned.meeting_details := tt |}%string in
  let answered :=
    {| Draft.subject := "hi"; Draft.body := "see you soon";
       Draft.tone := "casual"; Draft.signature := None;
       Draft.has_pii := false; Draft.is_safe := true |} in
  exists outcome,
    @process_request unit (fun _ _ => []) 10 (fun _ => planned)
      (fun _ => Some answered) "" v "hello" true
    = Some (outcome,
            [{| Sent.to := "a@b.com"; Sent.subject := "hi";
                Sent.body := "see you soon" |}])
    /\ has_pii (validate v "see you soon") = false.
Proof.
  intros v planned answered. eexists.
  assert (H : @process_request unit (fun _ _ => []) 10 (fun _ => planned)
                (fun _ => Some answered) "" v "hello" true = Some (_, _))
    by (vm_compute; reflexivity).
  split; [exact H|].
  assert (Hinv : forall inp : Prompt.inputs,
             (fun _ : Prompt.inputs => Some answered) inp <> None)
    by (intros inp; discriminate).
  pose proof (@auto_sent_body_has_no_pii unit _ _ _ _ _ v _ _ _ _
                eq_refl eq_refl Hinv H) as Hall.
  inversion Hall as [|? ? Hm _]. exact Hm.
Defined.

(** * Properties of the planner's helpers *)

Lemma starts_with_app (p s b : text) :
  starts_with p s = true -> starts_with p (s ++ b) = true.
Proof.
  revert s. induction p as [|x p IH]; intros s H; [reflexivity|].
  destruct s as [|y s]; [discriminate|]. simpl in *.
  apply andb_prop in H. destruct H as [-> H]. simpl. now apply IH.
Qed.

Lemma occurs_app_r (p s b : text) :
  occurs p s = true -> occurs p (s ++ b) = true.
Proof.
  induction s as [|y s IH]; intros H.
  - simpl in H. rewrite orb_false_r in H.
    destruct p; [|discriminate]. destruct b; reflexivity.
  - cbn [occurs app] in *. apply orb_prop in H. destruct H as [H|H].
    + change (y :: s ++ b) with ((y :: s) ++ b).
      now rewrite starts_with_app.
    + rewrite IH by exact H. apply orb_true_r.
Qed.

Lemma occurs_app_l (p a s : text) :
  occurs p s = true -> occurs p (a ++ s) = true.
Proof.
  induction a as [|x a IH]; intros H; [exact H|].
  cbn [occurs app]. rewrite IH by exact H. apply orb_true_r.
Qed.

Lemma str_lower_app (a b : string) :
  str_lower (a ++ b) = (str_lower a ++ str_lower b)%string.
Proof.
  unfold str_lower. rewrite chars_app, map_app.
  rewrite <- (str_chars (str (map lower (chars a)) ++ str (map lower (chars b)))).
  now rewrite chars_app, !chars_str.
Qed.

Lemma any_in_context words (a s b : string) :
  any_in words s = true -> any_in words (a ++ s ++ b) = true.
Proof.
  unfold any_in. intros H. apply existsb_exists in H.
  destruct H as (w & Hin & Hw). apply existsb_exists. exists w.
  split; [exact Hin|]. unfold contains in *. rewrite !chars_app.
  now apply occurs_app_l, occurs_app_r.
Qed.

(** X16: text added before or after a request never lowers the intent
    [analyze_intent] finds, in the order compose, search, forward,
    schedule_meeting, reply: a request read as a reply stays a reply. *)
Theorem added_text_never_lowers_intent (before request after : string) :
  intent_rank (analyze_intent request)
  <= intent_rank (analyze_intent (before ++ request ++ after)).
Proof.
  unfold analyze_intent. rewrite !str_lower_app.
  set (r := str_lower request).
  set (a := str_lower before). set (b := str_lower after).
  pose proof (fun ws => @any_in_context ws a r b) as Hc.
  destruct (any_in ["reply"; "respond"; "answer"]%string r) eqn:H1.
  { now rewrite Hc. }
  destruct (any_in ["meeting"; "schedule"; "calendar"]%string r) eqn:H2.
  { rewrite (Hc _ H2).
    destruct (any_in ["reply"; "respond"; "answer"]%string (a ++ r ++ b));
      vm_compute; lia. }
  destruct (any_in ["forward"; "fwd"]%string r) eqn:H3.
  { rewrite (Hc _ H3).
    destruct (any_in ["reply"; "respond"; "answer"]%string (a ++ r ++ b));
      [vm_compute; lia|].
    destruct (any_in ["meeting"; "schedule"; "calendar"]%string (a ++ r ++ b));
      vm_compute; lia. }
  destruct (any_in ["search"; "find"; "look for"]%string r) eqn:H4.
  { rewrite (Hc _ H4).
    destruct (any_in ["reply"; "respond"; "answer"]%string (a ++ r ++ b));
      [vm_compute; lia|].
    destruct (any_in ["meeting"; "schedule"; "calendar"]%string (a ++ r ++ b));
      [vm_compute; lia|].
    destruct (any_in ["forward"; "fwd"]%string (a ++ r ++ b));
      vm_compute; lia. }
  change (intent_rank "compose") with 0. lia.
Qed.

Lemma blind_local : set_blind local_set.
Proof. intros c. each_char c; reflexivity. Qed.

Lemma blind_domain : set_blind domain_set.
Proof. intros c. each_char c; reflexivity. Qed.

Lemma blind_tld : set_blind tld_set.
Proof. intros c. each_char c; reflexivity. Qed.

Lemma blind_at : chr_blind "@".
Proof. intros c. each_char c; reflexivity. Qed.

Lemma blind_dot : chr_blind ".".
Proof. intros c. each_char c; reflexivity. Qed.

Lemma email_blind : case_blind email_re.
Proof.
  cbn [email_re cat case_blind plus].
  repeat split;
    auto using blind_local, blind_domain, blind_tld, blind_at, blind_dot.
Qed.

Lemma extract_recipients_scan (request : string) :
  extract_recipients request
  = map (fun m => str (whole m))
      (re_finditer IGNORECASE email_re (chars request)).
Proof.
  unfold extract_recipients, findall, re_findall, re_finditer, NOFLAGS,
    IGNORECASE.
  change (ngroups email_re) with 0.
  rewrite <- (@scan_blind email_re (chars request) email_blind None 0).
  now rewrite map_map.
Qed.

Lemma hit_is_part (ps : list piece) (m : rmatch) :
  In m (hits ps) -> exists a b, source ps = a ++ whole m ++ b.
Proof.
  induction ps as [|[c|m'] ps IH]; intros H; cbn [hits source] in *.
  - contradiction.
  - destruct (IH H) as (a & b & ->). now exists (c :: a), b.
  - destruct H as [->|H].
    + now exists [], (source ps).
    + destruct (IH H) as (a & b & ->). exists (whole m' ++ a), b.
      now rewrite <- app_assoc.
Qed.

Lemma starts_with_self (p b : text) : starts_with p (p ++ b) = true.
Proof.
  induction p as [|x p IH]; [reflexivity|]. simpl.
  now rewrite Ascii.eqb_refl, IH.
Qed.

Lemma occurs_inside (a p b : text) : occurs p (a ++ p ++ b) = true.
Proof.
  apply occurs_app_l. destruct p as [|x p].
  - destruct b; reflexivity.
  - cbn [app occurs]. change (x :: p ++ b) with ((x :: p) ++ b).
    now rewrite starts_with_self.
Qed.

(** X17: every recipient [extract_recipients] returns is a part of the
    request and has the form [local@domain] with a single ['@']. *)
Theorem recipients_come_from_the_request (request recipient : string) :
  In recipient (extract_recipients request) ->
  contains request recipient = true
  /\ exists local domain,
       chars recipient = local ++ "@"%char :: domain
       /\ ~ In "@"%char local /\ ~ In "@"%char domain.
Proof.
  rewrite extract_recipients_scan. intros H. apply in_map_iff in H.
  destruct H as (m & <- & Hin). unfold re_finditer, IGNORECASE in Hin.
  rewrite chars_str. split.
  - unfold contains. rewrite chars_str.
    assert (Hnn : forall pv w nx, matches true email_re pv w nx -> w <> [])
      by (intros pv w nx M; now apply email_no_bracket_match in M).
    destruct (@scan_settled true email_re Hnn (chars request) None 0)
      as [Hsrc _].
    cbn [skipn] in Hsrc. apply hit_is_part in Hin.
    destruct Hin as (a & b & Hab). rewrite <- Hsrc, Hab.
    apply occurs_inside.
  - eapply email_hit_shape. exact Hin.
Qed.

Lemma recipients_come_from_the_request_witness :
  In "john@example.com"%string
    (extract_recipients "Send to john@example.com and sarah@test.org")
  /\ contains "Send to john@example.com and sarah@test.org"
       "john@example.com" = true.
Proof.
  assert (H : In "john@example.com"%string
                (extract_recipients
                   "Send to john@example.com and sarah@test.org"))
    by (vm_compute; left; reflexivity).
  split; [exact H|].
  exact (proj1 (@recipients_come_from_the_request _ _ H)).
Defined.

Lemma count_repeat_other (a b : string) (n : nat) :
  a <> b -> count_occ string_dec (repeat a n) b = 0.
Proof.
  intros H. apply count_occ_not_In. intros Hin.
  apply repeat_spec in Hin. congruence.
Qed.

Lemma count_repeat_same (a : string) (n : nat) :
  count_occ string_dec (repeat a n) a = n.
Proof.
  induction n as [|n IH]; [reflexivity|]. cbn [repeat].
  rewrite count_occ_cons_eq by reflexivity. now rewrite IH.
Qed.

(** X18: on an enabled engine [validate] reports as many ["email"]
    detections in a text as [extract_recipients] finds recipients in it:
    the planner and the validator read the same addresses, flag or none. *)
Theorem recipients_match_email_detections v (request : string) :
  enabled v = true ->
  count_occ string_dec (pii_types (validate v request)) "email"%string
  = length (extract_recipients request).
Proof.
  intros He. rewrite types_by_registry by exact He.
  rewrite extract_recipients_scan, length_map.
  unfold PATTERNS. cbn [flat_map fst snd].
  rewrite !count_occ_app, count_repeat_same.
  rewrite !count_repeat_other by discriminate. cbn [count_occ]. lia.
Qed.

Lemma recipients_match_email_detections_witness :
  let v := {| enabled := true; threshold := f_zero |} in
  enabled v = true
  /\ length (extract_recipients "To A@B.COM, 10.0.0.1") = 1.
Proof.
  intros v. split; [reflexivity|].
  rewrite <- (@recipients_match_email_detections v _ eq_refl).
  vm_compute. reflexivity.
Defined.

(** * What the registry never touches *)

Lemma needs_sound f r :
  needs f r ->
  forall pv w nx,
    matches true r pv w nx -> exists c, In c w /\ f c = true.
Proof.
  induction r as [| |c|s|r1 IH1 r2 IH2|r1 IH1 r2 IH2|n r IH|r IH|lo hi s];
    intros Hn pv w nx M; simpl in Hn, M; try contradiction.
  - destruct M as (x & -> & Hx). exists x. split; [now left|auto].
  - destruct M as (x & -> & Hx). exists x. split; [now left|auto].
  - destruct M as (w1 & w2 & -> & M1 & M2). destruct Hn as [Hn|Hn].
    + destruct (IH1 Hn _ _ _ M1) as (c & Hin & Hc).
      exists c. split; [apply in_or_app; now left|exact Hc].
    + destruct (IH2 Hn _ _ _ M2) as (c & Hin & Hc).
      exists c. split; [apply in_or_app; now right|exact Hc].
  - destruct Hn as [H1 H2]. destruct M as [M|M]; eauto.
  - eauto.
  - destruct Hn as [Hlo Hs]. destruct M as (Hall & Hlen & _).
    destruct w as [|x w]; [simpl in Hlen; lia|].
    exists x. split; [now left|]. inversion Hall; auto.
Qed.

Lemma any_digit (x : ascii) :
  set_match true [IDigit] x = true -> digit_or_at x = true.
Proof. each_char x; intros H; solve [reflexivity | discriminate H]. Qed.

Lemma any_digit09 (x : ascii) :
  set_match true digits09 x = true -> digit_or_at x = true.
Proof. each_char x; intros H; solve [reflexivity | discriminate H]. Qed.

Lemma any_at (x : ascii) :
  chr_match true x "@" = true -> digit_or_at x = true.
Proof. each_char x; intros H; solve [reflexivity | discriminate H]. Qed.

Lemma registry_needs (pii_type : string) (pattern : regex) :
  In (pii_type, pattern) PATTERNS -> needs digit_or_at pattern.
Proof.
  unfold PATTERNS. cbn [In]. intros H.
  repeat destruct H as [H|H]; try contradiction; injection H as _ <-.
  - cbn [email_re cat needs plus]. right. right. left. exact any_at.
  - cbn [phone_re cat needs maybe times]. right. right. right. left.
    split; [lia|exact any_digit09].
  - cbn [ssn_re cat needs times]. right. left. split; [lia|exact any_digit].
  - cbn [credit_card_re cat needs times]. right. left.
    split; [lia|exact any_digit].
  - cbn [ip_address_re cat needs]. right. left. split; [lia|exact any_digit].
  - cbn [address_re cat needs plus]. right. left.
    split; [lia|exact any_digit].
Qed.

(** X19: a text without a decimal digit and without ['@'] is out of reach
    of every pattern of the registry: on an enabled engine [validate]
    finds no PII in it, and [sanitize] returns it unchanged. *)
Theorem text_without_digit_or_at_is_untouched v (x : string) :
  enabled v = true ->
  Forall (fun c => digit_or_at c = false) (chars x) ->
  has_pii (validate v x) = false /\ sanitize x = Some x.
Proof.
  intros He Hx.
  assert (Hd : _detect_patterns x = []).
  { apply detected_nothing_iff. intros t p Hin.
    apply free_finds_nothing. intros pre w post Hsplit M.
    destruct (@needs_sound digit_or_at p (@registry_needs t p Hin) _ _ _ M)
      as (c & Hc & Hf).
    rewrite Forall_forall in Hx. rewrite (Hx c) in Hf; [discriminate|].
    rewrite Hsplit. apply in_or_app. right. apply in_or_app. now left. }
  split; [|now apply undetected_is_unchanged].
  rewrite validate_enabled by exact He. cbn [has_pii]. now rewrite Hd.
Qed.

Lemma text_without_digit_or_at_is_untouched_witness :
  let v := {| enabled := true; threshold := f_zero |} in
  (enabled v = true
   /\ Forall (fun c => digit_or_at c = false) (chars "Dear Ann, see you."))
  /\ sanitize "Dear Ann, see you." = Some "Dear Ann, see you."%string.
Proof.
  intros v.
  assert (H : Forall (fun c => digit_or_at c = false)
                (chars "Dear Ann, see you."))
    by (repeat constructor).
  split; [split; [reflexivity|exact H]|].
  exact (proj2 (@text_without_digit_or_at_is_untouched v _ eq_refl H)).
Defined.

(** * Further properties of the drafter and the workflow *)

(** X20: with the engine disabled [draft] scrubs and checks nothing: the
    chain gets the request as given, and an answered draft comes back with
    the chain's body, flagged [has_pii = false] and [is_safe = true]
    whatever that body holds. *)
Theorem disabled_engine_drafts_unchecked (E : Type) invoke fmt v request
    plan (context : option (Context.dict E)) inp answered :
  enabled v = false ->
  @prompt_inputs E fmt v request plan context = Some inp ->
  invoke inp = Some answered ->
  Prompt.request inp = request
  /\ exists d,
       @draft E invoke fmt v request plan context = Some d
       /\ Draft.body d = Draft.body answered
       /\ Draft.has_pii d = false /\ Draft.is_safe d = true.
Proof.
  intros He Hinp Hinv. split.
  - apply prompt_inputs_shape in Hinp.
    destruct Hinp as (r & k & c & Hr & _ & _ & ->).
    now rewrite He in Hr.
  - unfold draft. rewrite Hinp, Hinv. unfold screen_draft, validate.
    rewrite He. cbn. eexists. split; [reflexivity|]. cbn. auto.
Qed.

Lemma disabled_engine_drafts_unchecked_witness :
  let v := {| enabled := false; threshold := f_zero |} in
  let plan :=
    {| Plan.intent := None; Plan.tone := None; Plan.recipients := None;
       Plan.key_points := None; Plan.subject := None |} in
  let answered :=
    {| Draft.subject := "hi"; Draft.body := "ssn 123-45-6789";
       Draft.tone := "casual"; Draft.signature := None;
       Draft.has_pii := false; Draft.is_safe := true |} in
  exists d,
    @draft unit (fun _ => Some answered) "" v "hello" plan None = Some d
    /\ Draft.body d = "ssn 123-45-6789"%string /\ Draft.is_safe d = true.
Proof.
  intros v plan answered.
  assert (Hinp : exists inp,
             @prompt_inputs unit "" v "hello" plan None = Some inp)
    by (eexists; vm_compute; reflexivity).
  destruct Hinp as (inp & Hinp).
  destruct (proj2 (@disabled_engine_drafts_unchecked unit
                     (fun _ => Some answered) "" v "hello"%string plan None
                     inp answered eq_refl Hinp eq_refl))
    as (d & Hd & Hb & _ & Hs).
  exists d. auto.
Defined.



(** * The date and time parser *)

Lemma scan_skips ic r (pre : text) :
  (forall c, In c pre ->
     forall pv tl, attempt ic r false pv (c :: tl) = None) ->
  forall pv s,
    hits (scan ic r pv (pre ++ s) 0) = hits (scan ic r (lastp pv pre) s 0).
Proof.
  induction pre as [|c pre IH]; intros H pv s; [reflexivity|].
  cbn [app scan lastp]. rewrite (H c (or_introl eq_refl)). cbn [hits].
  apply IH. intros c' Hc'. apply H. now right.
Qed.

Lemma no_start_no_match ic r (t : text) :
  (forall c, In c t ->
     forall pv tl, attempt ic r false pv (c :: tl) = None) ->
  (forall pv, attempt ic r false pv [] = None) ->
  re_search ic r t = None.
Proof.
  intros Hc He. unfold re_search, re_finditer.
  rewrite <- (app_nil_r t), (@scan_skips ic r t Hc). cbn [scan].
  now rewrite He.
Qed.

Lemma digit_set (c : ascii) : set_match false [IDigit] c = is_digit c.
Proof. unfold set_match, set_has. cbn [existsb item_has]. apply orb_false_r. Qed.

Lemma time_starts_on_digit fl pv c tl :
  is_digit c = false -> attempt false time_re fl pv (c :: tl) = None.
Proof.
  intros H. unfold attempt, time_re. cbn [cat exec rep_one room andb].
  now rewrite digit_set, H.
Qed.

Lemma duration_starts_on_digit fl pv c tl :
  is_digit c = false -> attempt false duration_re fl pv (c :: tl) = None.
Proof.
  intros H. unfold attempt, duration_re, plus. cbn [cat exec rep_one room andb].
  now rewrite digit_set, H.
Qed.

Lemma binds_keeps ic (n : nat) (r : regex) :
  ~ In n (names r) ->
  forall pv w nx cs cs',
    binds ic r pv w nx cs cs' -> group_lookup n cs' = group_lookup n cs.
Proof.
  induction r as [| |c|s|r1 IH1 r2 IH2|r1 IH1 r2 IH2|g r IH|r IH|lo hi s];
    intros Hn pv w nx cs cs' B; cbn [names] in Hn; cbn [binds] in B.
  - now destruct B as [_ ->].
  - now destruct B as (_ & _ & ->).
  - now destruct B as [_ ->].
  - now destruct B as [_ ->].
  - destruct B as (w1 & w2 & cs1 & _ & B1 & B2).
    rewrite (IH2 (fun H => Hn (in_or_app _ _ _ (or_intror H))) _ _ _ _ _ B2).
    exact (IH1 (fun H => Hn (in_or_app _ _ _ (or_introl H))) _ _ _ _ _ B1).
  - destruct B as [B|B].
    + exact (IH1 (fun H => Hn (in_or_app _ _ _ (or_introl H))) _ _ _ _ _ B).
    + exact (IH2 (fun H => Hn (in_or_app _ _ _ (or_intror H))) _ _ _ _ _ B).
  - destruct B as (cs1 & B & ->). cbn [group_lookup].
    destruct (g =? n) eqn:E.
    + apply Nat.eqb_eq in E. exfalso. apply Hn. now left.
    + apply (IH (fun H => Hn (or_intror H)) _ _ _ _ _ B).
  - destruct B as [B|[_ ->]]; [|reflexivity].
    exact (IH Hn _ _ _ _ _ B).
  - now destruct B as [_ ->].
Qed.

(** Two digits ahead: the greedy [\d{1,2}] takes both when the rest of the
    pattern agrees. *)
Lemma lead_two_digits (A : Type) (tail : regex) pv d1 d2 rest cs
    (k : option ascii -> text -> caps -> option A) a :
  is_digit d1 = true -> is_digit d2 = true ->
  exec false tail (Some d2) rest ((1, [d1; d2]) :: cs) k = Some a ->
  exec false (Seq (Group 1 (Rep 1 (Some 2) [IDigit])) tail) pv
    (d1 :: d2 :: rest) cs k = Some a.
Proof.
  intros H1 H2 H.
  cbn [exec rep_one room andb pred option_map Nat.eqb].
  rewrite !digit_set, H1, H2.
  change (d1 :: d2 :: rest) with ([d1; d2] ++ rest).
  assert (E : rep_one false [IDigit] 0 (Some 0) (Some d2) rest
                (fun pv' rs' =>
                   exec false tail pv' rs'
                     ((1, eaten ([d1; d2] ++ rest) rs') :: cs) k) = Some a).
  { destruct rest as [|x rest']; cbn [rep_one room andb Nat.eqb];
      rewrite eaten_app; exact H. }
  cbn [app] in E |- *. now rewrite E.
Qed.

Lemma time_reads_two_digits pv d1 d2 rest :
  is_digit d1 = true -> is_digit d2 = true ->
  exists m,
    attempt false time_re false pv (d1 :: d2 :: rest) = Some m
    /\ group_lookup 1 (groups m) = Some [d1; d2].
Proof.
  intros H1 H2. unfold attempt, time_re. cbn [cat andb].
  match goal with
  | |- context [exec false (Seq _ ?t) pv ?rs [] ?k] =>
      destruct (exec false t (Some d2) rest [(1, [d1; d2])] k) as [m|] eqn:E
  end.
  - exists m. split; [now apply lead_two_digits|].
    apply exec_binds in E. destruct E as (w & nx & cs' & _ & B & Hk).
    injection Hk as <-. cbn [groups].
    eapply binds_keeps in B; [rewrite B; reflexivity|].
    cbn. intros [H|[H|[]]]; discriminate H.
  - exfalso. revert E. change rest with ([] ++ rest) at 1.
    apply exec_complete; [|discriminate].
    cbn [matches]. exists [], []. split; [reflexivity|]. split; [now right|].
    exists [], []. split; [reflexivity|].
    split; [split; [constructor|split; [apply Nat.le_refl|exact I]]|].
    exists [], []. split; [reflexivity|]. split; [now right|reflexivity].
Qed.

Lemma search_reads_two_digits (pre : text) d1 d2 rest :
  Forall (fun c => is_digit c = false) pre ->
  is_digit d1 = true -> is_digit d2 = true ->
  exists m,
    re_search false time_re (pre ++ d1 :: d2 :: rest) = Some m
    /\ group_or_empty m 1 = [d1; d2].
Proof.
  intros Hpre H1 H2. unfold re_search, re_finditer.
  rewrite scan_skips.
  - destruct (@time_reads_two_digits (lastp None pre) d1 d2 rest H1 H2)
      as (m & Hm & Hg).
    exists m. unfold group_or_empty. rewrite Hg. split; [|reflexivity].
    cbn [scan]. rewrite Hm. now destruct (length (whole m)).
  - rewrite Forall_forall in Hpre. intros c Hc pv tl.
    apply time_starts_on_digit. now apply Hpre.
Qed.

(** ** [lower] and [strip] around the digits *)

Lemma lower_digit (c : ascii) : is_digit (lower c) = is_digit c.
Proof. each_char c; reflexivity. Qed.

Lemma digit_lower (c : ascii) : is_digit c = true -> lower c = c.
Proof. each_char c; intros H; solve [reflexivity | discriminate H]. Qed.

Lemma digit_no_space (c : ascii) : is_digit c = true -> is_space c = false.
Proof. each_char c; intros H; solve [reflexivity | discriminate H]. Qed.

Lemma lstrip_forall (P : ascii -> Prop) (t : text) :
  Forall P t -> Forall P (lstrip t).
Proof.
  induction 1 as [|c t Hc Ht IH]; cbn [lstrip]; [constructor|].
  destruct (is_space c); [exact IH|now constructor].
Qed.

Lemma lstrip_keeps (P : ascii -> Prop) (pre : text) d (r : text) :
  is_space d = false -> Forall P pre ->
  exists pre', lstrip (pre ++ d :: r) = pre' ++ d :: r /\ Forall P pre'.
Proof.
  intros Hd. induction 1 as [|c pre Hc Hpre IH]; cbn [app lstrip].
  - rewrite Hd. exists []. split; [reflexivity|constructor].
  - destruct (is_space c).
    + exact IH.
    + exists (c :: pre). split; [reflexivity|now constructor].
Qed.

Lemma strip_keeps (pre : text) d1 d2 (rest : text) :
  is_digit d1 = true -> is_digit d2 = true ->
  Forall (fun c => is_digit c = false) pre ->
  exists pre' rest',
    rev (lstrip (rev (lstrip (pre ++ d1 :: d2 :: rest))))
    = pre' ++ d1 :: d2 :: rest'
    /\ Forall (fun c => is_digit c = false) pre'.
Proof.
  intros H1 H2 Hpre.
  destruct (@lstrip_keeps _ pre d1 (d2 :: rest) (digit_no_space _ H1) Hpre)
    as (pre' & -> & Hpre').
  replace (rev (pre' ++ d1 :: d2 :: rest))
    with (rev rest ++ d2 :: d1 :: rev pre')
    by (rewrite rev_app_distr; cbn [rev]; now rewrite <- !app_assoc).
  destruct (@lstrip_keeps (fun _ => True) (rev rest) d2 (d1 :: rev pre')
              (digit_no_space _ H2))
    as (back & -> & _); [now apply Forall_forall|].
  exists pre', (rev back). split; [|exact Hpre'].
  rewrite rev_app_distr. cbn [rev]. rewrite rev_involutive.
  now rewrite <- !app_assoc.
Qed.

Lemma lowered_stripped_digits (x : string) (pre : text) d1 d2 rest :
  chars x = pre ++ d1 :: d2 :: rest ->
  Forall (fun c => is_digit c = false) pre ->
  is_digit d1 = true -> is_digit d2 = true ->
  exists pre' rest',
    chars (str_strip (str_lower x)) = pre' ++ d1 :: d2 :: rest'
    /\ Forall (fun c => is_digit c = false) pre'.
Proof.
  intros Ht Hpre H1 H2. unfold str_strip, str_lower.
  rewrite !chars_str, Ht, map_app. cbn [map].
  rewrite (digit_lower _ H1), (digit_lower _ H2).
  apply strip_keeps; [exact H1|exact H2|].
  apply Forall_forall. intros c Hc. apply in_map_iff in Hc.
  destruct Hc as (c0 & <- & Hc0). rewrite lower_digit.
  rewrite Forall_forall in Hpre. now apply Hpre.
Qed.

Lemma lowered_stripped_no_digit (x : string) :
  Forall (fun c => is_digit c = false) (chars x) ->
  Forall (fun c => is_digit c = false) (chars (str_strip (str_lower x))).
Proof.
  intros H. unfold str_strip, str_lower. rewrite !chars_str.
  apply Forall_rev, lstrip_forall, Forall_rev, lstrip_forall.
  apply Forall_forall. intros c Hc. apply in_map_iff in Hc.
  destruct Hc as (c0 & <- & Hc0). rewrite lower_digit.
  rewrite Forall_forall in H. now apply H.
Qed.

Lemma two_digit_value max_str_digits d1 d2 :
  int_of max_str_digits [d1; d2]
  = Some (10 * digit_value d1 + digit_value d2)%Z.
Proof.
  unfold int_of. cbn [length Nat.ltb Nat.leb andb fold_left]. f_equal; lia.
Qed.

(** ** Calendar arithmetic *)

Lemma add_days_some dt n :
  (1 <= Clock.ordinal dt + n <= MAX_ORDINAL)%Z ->
  add_days dt n
  = Some {| Clock.ordinal := Clock.ordinal dt + n;
            Clock.hour := Clock.hour dt; Clock.minute := Clock.minute dt;
            Clock.second := Clock.second dt;
            Clock.microsecond := Clock.microsecond dt |}.
Proof.
  intros [Hlo Hhi]. unfold add_days.
  apply Z.leb_le in Hlo. apply Z.leb_le in Hhi. now rewrite Hlo, Hhi.
Qed.

Lemma add_hour_some dt :
  (1 <= Clock.ordinal dt /\ Clock.ordinal dt + 1 <= MAX_ORDINAL)%Z ->
  (0 <= Clock.hour dt < 24)%Z -> (0 <= Clock.minute dt < 60)%Z ->
  exists e, add_minutes dt 60 = Some e.
Proof.
  intros Ho Hh Hm. unfold add_minutes.
  set (total := (Clock.hour dt * 60 + Clock.minute dt + 60)%Z).
  assert (Hd : (0 <= total / 1440 < 2)%Z).
  { split; [apply Z.div_pos; unfold total; lia|].
    apply Z.div_lt_upper_bound; unfold total; lia. }
  rewrite add_days_some; [eauto|]. cbn [Clock.ordinal]. lia.
Qed.

Lemma later_day now k :
  in_calendar now -> (0 < k <= 30)%Z ->
  exists b s e,
    add_days now k = Some b
    /\ (Clock.ordinal now <? Clock.ordinal b)%Z = true
    /\ replace_time b 9 0 = Some s
    /\ add_minutes s 60 = Some e
    /\ Clock.ordinal s = (Clock.ordinal now + k)%Z
    /\ Clock.hour s = 9%Z /\ Clock.minute s = 0%Z
    /\ Clock.second s = 0%Z /\ Clock.microsecond s = 0%Z.
Proof.
  intros (Hlo & Hhi & Hh & Hm) Hk.
  assert (Hr : (1 <= Clock.ordinal now + k <= MAX_ORDINAL)%Z)
    by (unfold MAX_ORDINAL in *; lia).
  assert (Hb := @add_days_some now k Hr).
  match type of Hb with _ = Some ?b0 => set (b := b0) in * end.
  unfold MAX_ORDINAL in *.
  set (s := {| Clock.ordinal := Clock.ordinal b; Clock.hour := 9%Z;
               Clock.minute := 0%Z; Clock.second := 0%Z;
               Clock.microsecond := 0%Z |}).
  destruct (@add_hour_some s) as (e & He);
    [unfold s, b, MAX_ORDINAL; cbn [Clock.ordinal]; lia
    |unfold s; cbn [Clock.hour]; lia
    |unfold s; cbn [Clock.minute]; lia|].
  exists b, s, e. repeat split; try assumption; try reflexivity.
  apply Z.ltb_lt. unfold b. cbn [Clock.ordinal]. lia.
Qed.

(** X22: [parse] raises whenever the first number of the text opens with
    two digits that read 24 or more, whatever follows: the number is taken
    as the hour, be it a time such as 25:00, a duration such as 45 minutes
    or a phone number. *)
Theorem first_number_above_23_raises now tz max_str_digits (x : string)
    (pre : text) d1 d2 rest :
  chars x = pre ++ d1 :: d2 :: rest ->
  Forall (fun c => is_digit c = false) pre ->
  is_digit d1 = true -> is_digit d2 = true ->
  (24 <= 10 * digit_value d1 + digit_value d2)%Z ->
  parse now tz max_str_digits x = None.
Proof.
  intros Hx Hpre H1 H2 Hv.
  destruct (@lowered_stripped_digits x pre d1 d2 rest Hx Hpre H1 H2)
    as (pre' & rest' & Hc & Hpre').
  destruct (@search_reads_two_digits pre' d1 d2 rest' Hpre' H1 H2)
    as (m & Hm & Hg).
  unfold parse. cbv zeta. unfold NOFLAGS. rewrite Hc, Hm, Hg, two_digit_value.
  remember (10 * digit_value d1 + digit_value d2)%Z as h eqn:Eh.
  match goal with
  | |- match ?b with _ => _ end = None => destruct b as [base_date|]
  end; [|reflexivity].
  replace (h <? 12)%Z with false by (symmetry; apply Z.ltb_ge; lia).
  replace (h =? 12)%Z with false by (symmetry; apply Z.eqb_neq; lia).
  rewrite !andb_false_r.
  assert (Hr : forall minute, replace_time base_date h minute = None).
  { intros minute. unfold replace_time.
    replace (h <=? 23)%Z with false by (symmetry; apply Z.leb_gt; lia).
    now rewrite andb_false_r. }
  destruct (group_lookup 2 (groups m)) as [[|c digits]|];
    [now rewrite Hr| |now rewrite Hr].
  destruct (int_of max_str_digits (c :: digits)); [now rewrite Hr|reflexivity].
Qed.

Lemma first_number_above_23_raises_witness :
  let now :=
    {| Clock.ordinal := 739926; Clock.hour := 23; Clock.minute := 30;
       Clock.second := 15; Clock.microsecond := 99 |} in
  (Forall (fun c => is_digit c = false) (chars "tomorrow at ")
   /\ (24 <= 10 * digit_value "2" + digit_value "5")%Z)
  /\ parse now "UTC" 4300 "tomorrow at 25:00" = None.
Proof.
  intros now.
  assert (Hpre : Forall (fun c => is_digit c = false) (chars "tomorrow at "))
    by (repeat constructor).
  assert (Hv : (24 <= 10 * digit_value "2" + digit_value "5")%Z)
    by (vm_compute; discriminate).
  split; [split; assumption|].
  exact (@first_number_above_23_raises now "UTC" 4300 "tomorrow at 25:00"
           (chars "tomorrow at ") "2"%char "5"%char (chars ":00")
           eq_refl Hpre eq_refl eq_refl Hv).
Defined.

(** X23: a text without a decimal digit always parses, to a slot of 60
    minutes in the parser's time zone that starts either at the current
    moment or at 09:00:00 on a day at most 30 days ahead. *)
Theorem text_without_digits_gets_defaults now tz max_str_digits (x : string) :
  in_calendar now ->
  Forall (fun c => is_digit c = false) (chars x) ->
  exists slot,
    parse now tz max_str_digits x = Some slot
    /\ Slot.duration_minutes slot = 60%Z
    /\ Slot.timezone slot = tz
    /\ add_minutes (Slot.start slot) 60 = Some (Slot.end_ slot)
    /\ (Slot.start slot = now
        \/ ((Clock.ordinal now < Clock.ordinal (Slot.start slot)
             <= Clock.ordinal now + 30)%Z
            /\ Clock.hour (Slot.start slot) = 9%Z
            /\ Clock.minute (Slot.start slot) = 0%Z
            /\ Clock.second (Slot.start slot) = 0%Z
            /\ Clock.microsecond (Slot.start slot) = 0%Z)).
Proof.
  intros Hnow Hx. apply lowered_stripped_no_digit in Hx.
  rewrite Forall_forall in Hx.
  assert (Ht : re_search NOFLAGS time_re (chars (str_strip (str_lower x)))
               = None).
  { apply no_start_no_match; [|reflexivity].
    intros c Hc pv tl. apply time_starts_on_digit. now apply Hx. }
  assert (Hd : re_search NOFLAGS duration_re
                 (chars (str_strip (str_lower x))) = None).
  { apply no_start_no_match; [|reflexivity].
    intros c Hc pv tl. apply duration_starts_on_digit. now apply Hx. }
  assert (Hlater : forall k, (0 < k <= 30)%Z ->
            exists slot,
              match add_days now k with
              | None => None
              | Some base_date =>
                  match
                    (if (Clock.ordinal now <? Clock.ordinal base_date)%Z
                     then replace_time base_date 9 0 else Some base_date)
                  with
                  | None => None
                  | Some start_time =>
                      match add_minutes start_time 60 with
                      | None => None
                      | Some end_time =>
                          Some {| Slot.start := start_time;
                                  Slot.end_ := end_time;
                                  Slot.duration_minutes := 60%Z;
                                  Slot.timezone := tz |}
                      end
                  end
              end = Some slot
              /\ Slot.duration_minutes slot = 60%Z
              /\ Slot.timezone slot = tz
              /\ add_minutes (Slot.start slot) 60 = Some (Slot.end_ slot)
              /\ (Slot.start slot = now
                  \/ ((Clock.ordinal now < Clock.ordinal (Slot.start slot)
                       <= Clock.ordinal now + 30)%Z
                      /\ Clock.hour (Slot.start slot) = 9%Z
                      /\ Clock.minute (Slot.start slot) = 0%Z
                      /\ Clock.second (Slot.start slot) = 0%Z
                      /\ Clock.microsecond (Slot.start slot) = 0%Z))).
  { intros k Hk.
    destruct (@later_day now k Hnow Hk)
      as (b & s & e & -> & -> & -> & He & Ho & Hh & Hm & Hs & Hu).
    rewrite He. eexists. split; [reflexivity|]. cbn [Slot.start Slot.end_
      Slot.duration_minutes Slot.timezone].
    repeat split; try assumption. right. repeat split; try assumption; lia. }
  assert (Hsame :
            exists slot,
              match
                (if (Clock.ordinal now <? Clock.ordinal now)%Z
                 then replace_time now 9 0 else Some now)
              with
              | None => None
              | Some start_time =>
                  match add_minutes start_time 60 with
                  | None => None
                  | Some end_time =>
                      Some {| Slot.start := start_time;
                              Slot.end_ := end_time;
                              Slot.duration_minutes := 60%Z;
                              Slot.timezone := tz |}
                  end
              end = Some slot
              /\ Slot.duration_minutes slot = 60%Z
              /\ Slot.timezone slot = tz
              /\ add_minutes (Slot.start slot) 60 = Some (Slot.end_ slot)
              /\ (Slot.start slot = now
                  \/ ((Clock.ordinal now < Clock.ordinal (Slot.start slot)
                       <= Clock.ordinal now + 30)%Z
                      /\ Clock.hour (Slot.start slot) = 9%Z
                      /\ Clock.minute (Slot.start slot) = 0%Z
                      /\ Clock.second (Slot.start slot) = 0%Z
                      /\ Clock.microsecond (Slot.start slot) = 0%Z))).
  { rewrite Z.ltb_irrefl.
    destruct Hnow as (Hlo & Hhi & Hh & Hm).
    destruct (@add_hour_some now) as (e & He);
      [unfold MAX_ORDINAL in *; lia|exact Hh|exact Hm|].
    rewrite He. eexists. split; [reflexivity|].
    cbn [Slot.start Slot.end_ Slot.duration_minutes Slot.timezone].
    repeat split; try assumption. now left. }
  unfold parse. cbv zeta. rewrite Ht, Hd.
  destruct (contains (str_strip (str_lower x)) "tomorrow");
    [apply Hlater; lia|].
  destruct (contains (str_strip (str_lower x)) "next week");
    [apply Hlater; lia|].
  destruct (contains (str_strip (str_lower x)) "next month");
    [apply Hlater; lia|].
  destruct (contains (str_strip (str_lower x)) "today"
            || contains (str_strip (str_lower x)) "this"); exact Hsame.
Qed.

Lemma text_without_digits_gets_defaults_witness :
  let now :=
    {| Clock.ordinal := 739926; Clock.hour := 23; Clock.minute := 30;
       Clock.second := 15; Clock.microsecond := 99 |} in
  (in_calendar now
   /\ Forall (fun c => is_digit c = false) (chars "sometime next week"))
  /\ exists slot,
       parse now "UTC" 4300 "sometime next week" = Some slot
       /\ Slot.duration_minutes slot = 60%Z.
Proof.
  intros now.
  assert (Hnow : in_calendar now) by (vm_compute; intuition discriminate).
  assert (Hx : Forall (fun c => is_digit c = false)
                 (chars "sometime next week"))
    by (repeat constructor).
  split; [split; assumption|].
  destruct (@text_without_digits_gets_defaults now "UTC" 4300
              "sometime next week" Hnow Hx) as (slot & Hp & Hd & _).
  exists slot. split; assumption.
Defined.
